(** * CLUE numeric formatting and cppstdx value ranges

    A shallow embedding of [include/clue/formatting_base.hpp] and of the
    iterator of [include/cppstdx/value_range.hpp].

    Conventions of the embedding:
    - an integer argument of a template type [T] is a [Z] that lies in the
      range of some integral type of at most 64 bits ([integral_value]);
    - a [size_t] is a [Z]; additions on it wrap modulo [2^64] ([size_wrap]);
    - the caller's character buffer is a [list ascii]; a pointer into it
      is its offset from the start of the buffer; a store outside the
      buffer is undefined behaviour and ends the computation with
      [OutOfBounds]; a failed [assert] ends it with [AssertionFailed]. *)

From Stdlib Require Import ZArith Lia Ascii String.
From stdpp Require Import base list strings.

Local Open Scope Z_scope.

(** ** Outcomes and the buffer monad *)

Inductive result (A : Type) : Type :=
| Ok (a : A)
| AssertionFailed
| OutOfBounds.

Arguments Ok {A} a.
Arguments AssertionFailed {A}.
Arguments OutOfBounds {A}.

Abbreviation buffer := (list ascii).

Definition M (A : Type) : Type := buffer -> result (A * buffer).

Definition ret {A : Type} (a : A) : M A := fun b => Ok (a, b).

Definition bind {A B : Type} (m : M A) (k : A -> M B) : M B :=
  fun b =>
    match m b with
    | Ok (a, b') => k a b'
    | AssertionFailed => AssertionFailed
    | OutOfBounds => OutOfBounds
    end.

Notation "x <- m ;; k" := (bind m (fun x => k))
  (at level 100, m at next level, right associativity).
Notation "m ;;; k" := (bind m (fun _ => k))
  (at level 100, right associativity).

(** [assert(c)] / [CLUE_ASSERT(c)] *)
Definition assert (c : bool) : M unit :=
  fun b => if c then Ok (tt, b) else AssertionFailed.

(** [*p = c] for a pointer [p] at offset [p] of the buffer *)
Definition store (p : Z) (c : ascii) : M unit :=
  fun b =>
    if (0 <=? p) && (p <? Z.of_nat (length b))
    then Ok (tt, <[Z.to_nat p := c]> b)
    else OutOfBounds.

Definition NUL : ascii := Ascii.zero.

Definition is_nul (c : ascii) : bool :=
  if ascii_dec c NUL then true else false.

(** ** Machine integers *)

Definition size_wrap (z : Z) : Z := z mod 2 ^ 64.

(** The values of the integral types of at most 64 bits, signed or not. *)
Definition integral_value (x : Z) : Prop := - 2 ^ 63 <= x < 2 ^ 64.

(** ** Formatting flags *)

Definition flag_t := Z.

Definition upper_case : flag_t := 1.
Definition pad_zeros : flag_t := 2.
Definition plus_sign : flag_t := 4.
Definition left_just : flag_t := 8.
Definition quoted : flag_t := 16.

(** ** The digit routines of [clue/internal/numfmt.hpp] *)

Module details.

(** Modelled from the spec: [details::uabs] is declared in
    [clue/internal/numfmt.hpp], which is not among the sources.  The spec
    calls its result the unsigned magnitude of the value. *)
Definition uabs (x : Z) : Z := if x <? 0 then - x else x.

Fixpoint count_digits (fuel : nat) (b u : Z) : Z :=
  match fuel with
  | O => 1
  | S fuel' => if u <? b then 1 else 1 + count_digits fuel' b (u / b)
  end.

(** Modelled from the spec: [details::ndigits_oct], [details::ndigits_dec]
    and [details::ndigits_hex] are declared in [clue/internal/numfmt.hpp],
    which is not among the sources.  The spec gives their result as the
    count of digits needed to represent the magnitude in the base; the
    count is taken by repeated division, and a magnitude [u] needs at most
    [log2 u] divisions. *)
Definition ndigits_base (b u : Z) : Z :=
  count_digits (Z.to_nat (Z.log2 u)) b u.

Definition ndigits_oct (u : Z) : Z := ndigits_base 8 u.
Definition ndigits_dec (u : Z) : Z := ndigits_base 10 u.
Definition ndigits_hex (u : Z) : Z := ndigits_base 16 u.

(** The character of one digit value; letters for the values above 9. *)
Definition digit_char (upper : bool) (v : Z) : ascii :=
  if v <? 10 then ascii_of_nat (Z.to_nat (48 + v))
  else ascii_of_nat (Z.to_nat ((if upper then 65 else 97) + (v - 10))).

(** The [count] low digits of [x] in base [b], most significant first. *)
Fixpoint digit_string (b : Z) (upper : bool) (x : Z) (count : nat)
  : list ascii :=
  match count with
  | O => []
  | S k => digit_string b upper (x / b) k ++ [digit_char upper (x mod b)]
  end.

(** Stores the characters [cs] at [p], [p+1], ... in this order. *)
Fixpoint write_chars (cs : list ascii) (p : Z) : M unit :=
  match cs with
  | [] => ret tt
  | c :: rest => store p c ;;; write_chars rest (p + 1)
  end.

Definition supported_base (base : Z) : bool :=
  (base =? 8) || (base =? 10) || (base =? 16).

(** Modelled from the spec: [details::extract_digits] is declared in
    [clue/internal/numfmt.hpp], which is not among the sources.  By the
    spec it writes exactly [count] digit characters, most significant
    digit first, with upper or lower case letters by the flag; a base
    other than 8, 10 and 16 is a contract violation checked at the
    boundary. *)
Definition extract_digits (x base : Z) (upper : bool) (p : Z) (nd : Z)
  : M unit :=
  assert (supported_base base) ;;;
  write_chars (digit_string base upper x (Z.to_nat nd)) p.

(** Modelled from the spec: [details::extract_digits_dec] is declared in
    [clue/internal/numfmt.hpp], which is not among the sources; it is the
    decimal case of [extract_digits]. *)
Definition extract_digits_dec (x : Z) (p : Z) (nd : Z) : M unit :=
  write_chars (digit_string 10 false x (Z.to_nat nd)) p.

End details.

(** ** Integer formatting *)

(** [ndigits(x, base)] *)
Definition ndigits (x : Z) (base : Z) : Z :=
  let u := details.uabs x in
  if base =? 8 then details.ndigits_oct u
  else if base =? 10 then details.ndigits_dec u
  else if base =? 16 then details.ndigits_hex u
  else 0.

(** The loop [for (size_t i = 0; i < plen; ++i) *(p++) = c;], which
    returns the advanced pointer. *)
Fixpoint fill (plen : nat) (c : ascii) (p : Z) : M Z :=
  match plen with
  | O => ret p
  | S k => store p c ;;; fill k c (p + 1)
  end.

(** [if (sign) *(p++) = sign;] *)
Definition put_sign (sign : ascii) (p : Z) : M Z :=
  if is_nul sign then ret p else store p sign ;;; ret (p + 1).

Module int_formatter.

Record t : Type := Build { base_ : Z; width_ : Z; flags_ : flag_t }.

Definition default : t := Build 10 0 0.
Definition of_base (base : Z) : t := Build base 0 0.

Definition base (f : t) (v : Z) : t := Build v (width_ f) (flags_ f).
Definition width (f : t) (v : Z) : t := Build (base_ f) v (flags_ f).
Definition flags (f : t) (v : flag_t) : t := Build (base_ f) (width_ f) v.

(** [operator |] *)
Definition or (f : t) (v : flag_t) : t :=
  Build (base_ f) (width_ f) (Z.lor (flags_ f) v).

Definition any (f : t) (msk : flag_t) : bool :=
  negb (Z.land (flags_ f) msk =? 0).

Definition max_formatted_length (f : t) (x : Z) : Z :=
  let n := ndigits x (base_ f) in
  let n := if (x <? 0) || any f plus_sign then size_wrap (n + 1) else n in
  if n >? width_ f then n else width_ f.

Definition sign_of (f : t) (x : Z) : ascii :=
  if x <? 0 then "-"%char
  else if any f plus_sign then "+"%char else NUL.

Definition formatted_write (f : t) (x : Z) (buf_len : Z) : M Z :=
  let ax := details.uabs x in
  let nd := ndigits ax (base_ f) in
  let sign := sign_of f x in
  let flen := size_wrap (nd + (if is_nul sign then 0 else 1)) in
  assert (buf_len >? flen) ;;;
  p <- (if width_ f >? flen then
          let plen := width_ f - flen in
          if any f pad_zeros then
            p <- put_sign sign 0 ;;
            fill (Z.to_nat plen) "0"%char p
          else
            p <- fill (Z.to_nat plen) " "%char 0 ;;
            put_sign sign p
        else
          put_sign sign 0) ;;
  details.extract_digits ax (base_ f) (any f upper_case) p nd ;;;
  store (p + nd) NUL ;;;
  ret (p + nd).

End int_formatter.

Definition oct_fmt : int_formatter.t := int_formatter.of_base 8.
Definition dec_fmt : int_formatter.t := int_formatter.of_base 10.
Definition hex_fmt : int_formatter.t := int_formatter.of_base 16.

(** The simplified formatter for the default setting: base 10, width 0,
    no flags. *)
Module default_int_formatter.

Inductive t : Type := Build.

Definition base (_ : t) (v : Z) : int_formatter.t := int_formatter.Build v 0 0.
Definition width (_ : t) (v : Z) : int_formatter.t := int_formatter.Build 10 v 0.
Definition flags (_ : t) (v : flag_t) : int_formatter.t :=
  int_formatter.Build 10 0 v.
Definition or (_ : t) (v : flag_t) : int_formatter.t :=
  int_formatter.Build 10 0 v.
Definition any (_ : t) (msk : flag_t) : bool := false.

Definition max_formatted_length (_ : t) (x : Z) : Z :=
  let n := details.ndigits_dec (details.uabs x) in
  if x <? 0 then size_wrap (n + 1) else n.

Definition formatted_write (_ : t) (x : Z) (buf_len : Z) : M Z :=
  let ax := details.uabs x in
  let nd := details.ndigits_dec ax in
  let flen := nd in
  r <- (if x <? 0 then
          let flen := size_wrap (flen + 1) in
          assert (buf_len >? flen) ;;;
          store 0 "-"%char ;;;
          ret (1, flen)
        else
          assert (buf_len >? flen) ;;;
          ret (0, flen)) ;;
  let '(p, flen) := r in
  details.extract_digits_dec ax p nd ;;;
  store (p + nd) NUL ;;;
  ret flen.

End default_int_formatter.

Definition default_int_fmt : default_int_formatter.t :=
  default_int_formatter.Build.

(** ** Floating-point formatting: the length bound *)

(** A [double] is its IEEE-754 binary64 bit pattern; the classification
    functions of [<cmath>] read the sign bit, the 11 exponent bits and the
    52 fraction bits. *)
Module ieee.

Definition double := Z.

Definition exponent_bits (x : double) : Z := Z.land (Z.shiftr x 52) 2047.
Definition fraction_bits (x : double) : Z := Z.land x (2 ^ 52 - 1).

Definition signbit (x : double) : bool := Z.testbit x 63.
Definition isfinite (x : double) : bool := negb (exponent_bits x =? 2047).
Definition isinf (x : double) : bool :=
  (exponent_bits x =? 2047) && (fraction_bits x =? 0).
Definition isnan (x : double) : bool :=
  (exponent_bits x =? 2047) && negb (fraction_bits x =? 0).

Definition pos_inf : double := Z.shiftl 2047 52.
Definition neg_inf : double := Z.lor (Z.shiftl 1 63) pos_inf.
Definition quiet_nan : double := Z.lor pos_inf (Z.shiftl 1 51).
Definition neg_quiet_nan : double := Z.lor (Z.shiftl 1 63) quiet_nan.

End ieee.

Module float_formatter.

Section WithTraits.

(** [float_fmt_traits<Tag>::maxfmtlength] forwards to
    [maxfmtlength_fixed] or [maxfmtlength_sci] of
    [clue/internal/numfmt.hpp], which is not among the sources: the
    bound for finite values stays a parameter of the formatter. *)
Variable maxfmtlength : ieee.double -> Z -> bool -> Z.

Record t : Type := Build { width_ : Z; precision_ : Z; flags_ : flag_t }.

Definition default : t := Build 0 6 0.

Definition width (f : t) (v : Z) : t := Build v (precision_ f) (flags_ f).
Definition precision (f : t) (v : Z) : t := Build (width_ f) v (flags_ f).
Definition flags (f : t) (v : flag_t) : t :=
  Build (width_ f) (precision_ f) v.
Definition or (f : t) (v : flag_t) : t :=
  Build (width_ f) (precision_ f) (Z.lor (flags_ f) v).

Definition any (f : t) (msk : flag_t) : bool :=
  negb (Z.land (flags_ f) msk =? 0).

(** The last branch of the source asserts [isnan(x)], which holds of
    every value that is neither finite nor infinite
    ([nan_when_neither]). *)
Definition max_formatted_length (f : t) (x : ieee.double) : Z :=
  let n :=
    if ieee.isfinite x then maxfmtlength x (precision_ f) (any f plus_sign)
    else if ieee.isinf x then
      if ieee.signbit x || any f plus_sign then 4 else 3
    else
      if any f plus_sign then 4 else 3 in
  if n >? width_ f then n else width_ f.

End WithTraits.

End float_formatter.

(** ** Generic formatting *)

(** What [strf] asks of its template parameter [Fmt]. *)
Class Formatter (F T : Type) : Type := {
  max_formatted_length : F -> T -> Z;
  formatted_write : F -> T -> Z -> M Z
}.

#[export] Instance int_formatter_Formatter : Formatter int_formatter.t Z := {|
  max_formatted_length := int_formatter.max_formatted_length;
  formatted_write := int_formatter.formatted_write
|}.

#[export] Instance default_int_formatter_Formatter
  : Formatter default_int_formatter.t Z := {|
  max_formatted_length := default_int_formatter.max_formatted_length;
  formatted_write := default_int_formatter.formatted_write
|}.

(** [std::string::resize]: cut, or extend with NUL characters. *)
Definition string_resize (n : Z) (s : list ascii) : list ascii :=
  resize (Z.to_nat n) NUL s.

(** [strf(x, fmt)].  A [std::string] of size [fmt_len] owns [fmt_len + 1]
    characters, the last one for the terminator.  The function is taken
    from the point where the string has been constructed: the constructor
    throws [std::length_error] when [fmt_len] exceeds [max_size()], and
    what is proved of [strf] holds of the calls in which it does not. *)
Definition strf {F T : Type} `{Formatter F T} (x : T) (fmt : F)
  : result string :=
  let fmt_len := max_formatted_length fmt x in
  let s := replicate (Z.to_nat fmt_len) NUL ++ [NUL] in
  match formatted_write fmt x (size_wrap (fmt_len + 1)) s with
  | Ok (wlen, s') =>
      if wlen <=? fmt_len then
        let s' := take (Z.to_nat fmt_len) s' in
        Ok (string_of_list_ascii
              (if wlen <? fmt_len then string_resize wlen s' else s'))
      else AssertionFailed
  | AssertionFailed => AssertionFailed
  | OutOfBounds => OutOfBounds
  end.

(** [default_formatter(x)] for an integral [x] *)
Definition default_formatter (x : Z) : default_int_formatter.t :=
  default_int_fmt.

(** The template [str(const T& x)] at an integral [T].  Overload
    resolution selects it for an argument of every integral type but
    [char], for which the non-template [str(char c)] is the better
    match. *)
Definition str (x : Z) : result string := strf x (default_formatter x).

(** [str(char c)] *)
Definition str_char (c : ascii) : string := String c EmptyString.

(** ** The iterator of [cppstdx::value_range] *)

Module value_range.

(** [range_traits<T>] *)
Class range_traits (T : Type) : Type := {
  increment : T -> T;
  decrement : T -> T;
  next : T -> T;
  prev : T -> T;
  eq : T -> T -> bool
}.

(** An integral type of [bits] bits, two's complement when signed. *)
Record int_kind : Type := { bits : Z; is_signed : bool }.

Definition wrap (k : int_kind) (z : Z) : Z :=
  if is_signed k
  then (z + 2 ^ (bits k - 1)) mod 2 ^ bits k - 2 ^ (bits k - 1)
  else z mod 2 ^ bits k.

Definition integral_traits (k : int_kind) : range_traits Z := {|
  increment x := wrap k (x + 1);
  decrement x := wrap k (x - 1);
  next x := wrap k (x + 1);
  prev x := wrap k (x - 1);
  eq x y := x =? y
|}.

Definition int32 : int_kind := {| bits := 32; is_signed := true |}.

Section Iterator.

Context {T : Type} (traits_ : range_traits T).

Record value_range_iterator : Type := Iter { v_ : T }.

(** [operator*] and [operator[]] return a [T&&] bound to a temporary that
    is gone when the call returns; reading through it is undefined, and
    they are left out. *)

(** [operator++()] and [operator--()]: the iterator after the call. *)
Definition pre_increment (it : value_range_iterator) : value_range_iterator :=
  Iter (increment (v_ it)).

Definition pre_decrement (it : value_range_iterator) : value_range_iterator :=
  Iter (decrement (v_ it)).

(** [operator++(int)] and [operator--(int)]: the returned iterator and
    the iterator after the call. *)
Definition post_increment (it : value_range_iterator)
  : value_range_iterator * value_range_iterator :=
  let t := v_ it in
  let v' := increment (v_ it) in
  (Iter t, Iter v').

Definition post_decrement (it : value_range_iterator)
  : value_range_iterator * value_range_iterator :=
  let t := v_ it in
  let v' := increment (v_ it) in
  (Iter t, Iter v').

End Iterator.

End value_range.

(** ** Arithmetic on value ranges

    The members of [range_traits<T>] that take a [difference_type], the
    remaining operators of the iterator, and [value_range] itself, for an
    integral [T] of kind [k]. *)

Module integral_range.

Section Kind.

Variable k : value_range.int_kind.

(** [make_signed<T>] and [make_unsigned<T>] *)
Definition difference_kind : value_range.int_kind :=
  {| value_range.bits := value_range.bits k; value_range.is_signed := true |}.
Definition size_kind : value_range.int_kind :=
  {| value_range.bits := value_range.bits k; value_range.is_signed := false |}.

(** [range_traits<T>] *)
Definition increment_by (x n : Z) : Z := value_range.wrap k (x + n).
Definition decrement_by (x n : Z) : Z := value_range.wrap k (x - n).
Definition advance (x n : Z) : Z := value_range.wrap k (x + n).
Definition retreat (x n : Z) : Z := value_range.wrap k (x - n).
Definition lt (x y : Z) : bool := x <? y.
Definition le (x y : Z) : bool := x <=? y.
Definition distance (x y : Z) : Z := value_range.wrap difference_kind (y - x).

Definition traits : value_range.range_traits Z := value_range.integral_traits k.

Abbreviation iterator := (@value_range.value_range_iterator Z).

(** Comparison operators of the iterator *)
Definition iter_lt (a r : iterator) : bool :=
  lt (value_range.v_ a) (value_range.v_ r).
Definition iter_le (a r : iterator) : bool :=
  le (value_range.v_ a) (value_range.v_ r).
Definition iter_gt (a r : iterator) : bool :=
  lt (value_range.v_ r) (value_range.v_ a).
Definition iter_ge (a r : iterator) : bool :=
  le (value_range.v_ r) (value_range.v_ a).
Definition iter_eq (a r : iterator) : bool :=
  value_range.eq (range_traits := traits) (value_range.v_ a) (value_range.v_ r).
Definition iter_ne (a r : iterator) : bool :=
  negb (value_range.eq (range_traits := traits)
          (value_range.v_ a) (value_range.v_ r)).

(** [operator+], [operator-] with a [difference_type], [operator+=] and
    [operator-=] (the iterator after the call) *)
Definition plus (it : iterator) (n : Z) : iterator :=
  value_range.Iter (advance (value_range.v_ it) n).
Definition minus (it : iterator) (n : Z) : iterator :=
  value_range.Iter (retreat (value_range.v_ it) n).
Definition add_assign (it : iterator) (n : Z) : iterator :=
  value_range.Iter (increment_by (value_range.v_ it) n).
Definition sub_assign (it : iterator) (n : Z) : iterator :=
  value_range.Iter (decrement_by (value_range.v_ it) n).

(** [operator-] between two iterators *)
Definition diff (a r : iterator) : Z :=
  distance (value_range.v_ r) (value_range.v_ a).

(** [value_range<T>] *)
Record t : Type := Build { first_ : Z; last_ : Z }.

(** The constructor takes [last] as a [size_type] and stores it in a
    [T]. *)
Definition make (first : Z) (last : Z) : t :=
  {| first_ := first; last_ := value_range.wrap k last |}.

Definition first (r : t) : Z := first_ r.
Definition last (r : t) : Z := last_ r.
Definition size (r : t) : Z :=
  value_range.wrap size_kind (distance (first_ r) (last_ r)).
Definition empty (r : t) : bool :=
  value_range.eq (range_traits := traits) (first_ r) (last_ r).
Definition begin_ (r : t) : iterator := value_range.Iter (first_ r).
Definition end_ (r : t) : iterator := value_range.Iter (last_ r).

(** [swap]: the two ranges after the call *)
Definition swap (r other : t) : t * t :=
  (Build (first_ other) (last_ other), Build (first_ r) (last_ r)).

End Kind.

End integral_range.

(** * Specification-side definitions *)

(** [d] is the number of digits of [u] in base [b]: the least [d >= 1]
    with [u < b ^ d]. *)
Definition is_digit_count (b u d : Z) : Prop :=
  1 <= d /\ u < b ^ d /\ (1 < d -> b ^ (d - 1) <= u).

(** The value of a digit character, and of a digit string read most
    significant digit first. *)
Definition digit_value (c : ascii) : Z :=
  let n := Z.of_nat (nat_of_ascii c) in
  if n <? 58 then n - 48 else if n <? 97 then n - 55 else n - 87.

Definition digits_value (b : Z) (cs : list ascii) : Z :=
  fold_left (fun acc c => acc * b + digit_value c) cs 0.

(** The characters [put_sign] stores. *)
Definition sign_chars (sign : ascii) : list ascii :=
  if is_nul sign then [] else [sign].

(** The sign character, when there is one. *)
Definition sign_text (f : int_formatter.t) (x : Z) : list ascii :=
  if x <? 0 then ["-"%char]
  else if int_formatter.any f plus_sign then ["+"%char] else [].

(** The characters of a formatted integer as the spec lays them out:
    sign, padding and digits. *)
Definition int_layout (f : int_formatter.t) (x : Z) : list ascii :=
  let nd := ndigits x (int_formatter.base_ f) in
  let sign := sign_chars (int_formatter.sign_of f x) in
  let digits :=
    details.digit_string (int_formatter.base_ f)
      (int_formatter.any f upper_case) (details.uabs x) (Z.to_nat nd) in
  let flen := nd + Z.of_nat (length sign) in
  if int_formatter.width_ f >? flen then
    let pad := Z.to_nat (int_formatter.width_ f - flen) in
    if int_formatter.any f pad_zeros
    then sign ++ replicate pad "0"%char ++ digits
    else replicate pad " "%char ++ sign ++ digits
  else sign ++ digits.

(** 1 when a sign character is written, else 0. *)
Definition sign_width (f : int_formatter.t) (x : Z) : Z :=
  if (x <? 0) || int_formatter.any f plus_sign then 1 else 0.

(** The characters the default integer formatter writes. *)
Definition default_int_layout (x : Z) : list ascii :=
  (if x <? 0 then ["-"%char] else []) ++
  details.digit_string 10 false (details.uabs x)
    (Z.to_nat (details.ndigits_dec (details.uabs x))).

(** A computation that leaves the extent of the buffer as it is. *)
Definition keeps_extent {A : Type} (m : M A) : Prop :=
  forall (b b' : buffer) (a : A), m b = Ok (a, b') -> length b' = length b.

(** A formatter writes through a pointer into the caller's storage, whose
    extent it cannot change. *)
Class FormatterExtent (F T : Type) `{Formatter F T} : Prop :=
  formatted_write_extent :
    forall (f : F) (x : T) (buf_len : Z),
      keeps_extent (formatted_write f x buf_len).

(** The values of an integral type of kind [k]. *)
Definition in_kind (k : value_range.int_kind) (x : Z) : Prop :=
  if value_range.is_signed k
  then - 2 ^ (value_range.bits k - 1) <= x < 2 ^ (value_range.bits k - 1)
  else 0 <= x < 2 ^ value_range.bits k.

(** [m] stores exactly the characters [cs] from the pointer [p] on and
    yields [a]: on a buffer with room for them it succeeds, on a shorter
    one it runs out of bounds. *)
Definition writes {A : Type} (m : M A) (p : Z) (cs : list ascii) (a : A)
  : Prop :=
  forall pre old : list ascii,
    p = Z.of_nat (length pre) ->
    ((length cs <= length old)%nat ->
     m (pre ++ old) = Ok (a, (pre ++ cs) ++ drop (length cs) old)) /\
    ((length old < length cs)%nat -> m (pre ++ old) = OutOfBounds).

(** Reading a decimal text with an optional leading minus sign. *)
Definition parse_decimal (cs : list ascii) : Z :=
  match cs with
  | c :: ds =>
      if ascii_dec c "-"%char then - digits_value 10 ds
      else digits_value 10 cs
  | [] => 0
  end.

(** * Verification *)

(** ** Digit counts *)

Lemma is_digit_count_unique (b u d1 d2 : Z) :
  2 <= b -> is_digit_count b u d1 -> is_digit_count b u d2 -> d1 = d2.
Proof.
  intros Hb (H1 & Hu1 & Hl1) (H2 & Hu2 & Hl2).
  destruct (Z.lt_trichotomy d1 d2) as [Hlt | [Heq | Hgt]]; [exfalso | exact Heq | exfalso].
  - assert (b ^ d1 <= b ^ (d2 - 1)) by (apply Z.pow_le_mono_r; lia). lia.
  - assert (b ^ d2 <= b ^ (d1 - 1)) by (apply Z.pow_le_mono_r; lia). lia.
Qed.

Lemma count_digits_range (fuel : nat) (b u : Z) :
  1 <= details.count_digits fuel b u <= Z.of_nat fuel + 1.
Proof.
  revert u. induction fuel as [| fuel IH]; intros u; simpl details.count_digits.
  - lia.
  - destruct (u <? b); [lia |]. specialize (IH (u / b)). lia.
Qed.

Lemma count_digits_spec (fuel : nat) (b u : Z) :
  2 <= b -> 0 <= u -> u < 2 ^ (Z.of_nat fuel + 1) ->
  is_digit_count b u (details.count_digits fuel b u).
Proof.
  intros Hb. revert u.
  induction fuel as [| fuel IH]; intros u Hu Hfuel; simpl details.count_digits.
  - change (2 ^ (Z.of_nat 0 + 1)) with 2 in Hfuel.
    repeat split; [lia | rewrite Z.pow_1_r; lia | lia].
  - destruct (Z.ltb_spec u b) as [Hlt | Hge].
    + repeat split; [lia | rewrite Z.pow_1_r; lia | lia].
    + assert (Hq : 0 <= u / b) by (apply Z.div_pos; lia).
      assert (Hq' : u / b < 2 ^ (Z.of_nat fuel + 1)).
      { apply Z.div_lt_upper_bound; [lia |].
        replace (Z.of_nat (S fuel) + 1) with (Z.succ (Z.of_nat fuel + 1)) in Hfuel by lia.
        rewrite Z.pow_succ_r in Hfuel by lia.
        assert (0 < 2 ^ (Z.of_nat fuel + 1)) by (apply Z.pow_pos_nonneg; lia).
        nia. }
      destruct (IH (u / b) Hq Hq') as (Hd & Hup & Hlow).
      set (d := details.count_digits fuel b (u / b)) in *.
      assert (Hmul : b * (u / b) <= u) by (apply Z.mul_div_le; lia).
      assert (Hmod : u < b * (u / b) + b).
      { pose proof (Z.div_mod u b ltac:(lia)). pose proof (Z.mod_pos_bound u b ltac:(lia)). lia. }
      repeat split.
      * lia.
      * replace (1 + d) with (Z.succ d) by lia. rewrite Z.pow_succ_r by lia. nia.
      * intros _. replace (1 + d - 1) with d by lia.
        destruct (Z.eq_dec d 1) as [-> | Hne].
        -- rewrite Z.pow_1_r. lia.
        -- replace d with (Z.succ (d - 1)) by lia. rewrite Z.pow_succ_r by lia.
           specialize (Hlow ltac:(lia)). nia.
Qed.

Lemma ndigits_base_spec (b u : Z) :
  2 <= b -> 0 <= u -> is_digit_count b u (details.ndigits_base b u).
Proof.
  intros Hb Hu. unfold details.ndigits_base. apply count_digits_spec; [lia | lia |].
  rewrite Z2Nat.id by apply Z.log2_nonneg.
  destruct (Z.eq_dec u 0) as [-> | Hne]; [reflexivity |].
  replace (Z.log2 u + 1) with (Z.succ (Z.log2 u)) by lia.
  apply Z.log2_spec. lia.
Qed.

Lemma ndigits_base_range (b u : Z) :
  0 <= u <= 2 ^ 64 -> 1 <= details.ndigits_base b u <= 65.
Proof.
  intros Hu. unfold details.ndigits_base.
  pose proof (count_digits_range (Z.to_nat (Z.log2 u)) b u) as H.
  rewrite Z2Nat.id in H by apply Z.log2_nonneg.
  assert (Z.log2 u <= 64).
  { change 64 with (Z.log2 (2 ^ 64)). apply Z.log2_le_mono. lia. }
  lia.
Qed.

Lemma uabs_abs (x : Z) : details.uabs x = Z.abs x.
Proof. unfold details.uabs. destruct (Z.ltb_spec x 0); lia. Qed.

Lemma uabs_range (x : Z) : integral_value x -> 0 <= details.uabs x <= 2 ^ 64.
Proof. unfold integral_value. rewrite uabs_abs. lia. Qed.

Lemma uabs_idem (x : Z) : details.uabs (details.uabs x) = details.uabs x.
Proof. rewrite !uabs_abs. lia. Qed.

Lemma ndigits_uabs (x base : Z) : ndigits (details.uabs x) base = ndigits x base.
Proof. unfold ndigits. now rewrite uabs_idem. Qed.

Lemma ndigits_range (x base : Z) :
  integral_value x -> 0 <= ndigits x base <= 65.
Proof.
  intros Hx. pose proof (uabs_range x Hx) as Hu. unfold ndigits.
  unfold details.ndigits_oct, details.ndigits_dec, details.ndigits_hex.
  pose proof (ndigits_base_range 8 _ Hu). pose proof (ndigits_base_range 10 _ Hu).
  pose proof (ndigits_base_range 16 _ Hu).
  repeat (destruct (_ =? _)); lia.
Qed.

Lemma ndigits_supported (x base : Z) :
  details.supported_base base = true ->
  ndigits x base = details.ndigits_base base (details.uabs x).
Proof.
  unfold details.supported_base, ndigits.
  unfold details.ndigits_oct, details.ndigits_dec, details.ndigits_hex.
  destruct (Z.eqb_spec base 8) as [-> | ?]; [reflexivity |].
  destruct (Z.eqb_spec base 10) as [-> | ?]; [reflexivity |].
  destruct (Z.eqb_spec base 16) as [-> | ?]; [reflexivity |].
  discriminate.
Qed.

Lemma supported_base_ge2 (base : Z) :
  details.supported_base base = true -> 2 <= base.
Proof.
  unfold details.supported_base.
  destruct (Z.eqb_spec base 8); [lia |].
  destruct (Z.eqb_spec base 10); [lia |].
  destruct (Z.eqb_spec base 16); [lia | discriminate].
Qed.

Lemma size_wrap_small (z : Z) : 0 <= z < 2 ^ 64 -> size_wrap z = z.
Proof. intros H. unfold size_wrap. now apply Z.mod_small. Qed.

(** ** Stores into the buffer

    The buffer is split into the characters before the pointer and the
    rest; a store replaces the head of the rest and moves the pointer. *)

Lemma store_frame (pre old : buffer) (c : ascii) (p : Z) :
  p = Z.of_nat (length pre) -> (0 < length old)%nat ->
  store p c (pre ++ old) = Ok (tt, (pre ++ [c]) ++ drop 1 old).
Proof.
  intros -> Hold. unfold store.
  destruct old as [| o old]; [simpl in Hold; lia |].
  rewrite length_app. simpl length.
  replace ((0 <=? Z.of_nat (length pre)) &&
           (Z.of_nat (length pre) <? Z.of_nat (length pre + S (length old))))
    with true
    by (symmetry; apply andb_true_intro; split; [apply Z.leb_le | apply Z.ltb_lt]; lia).
  rewrite Nat2Z.id.
  pose proof (insert_app_r pre (o :: old) 0 c) as E.
  rewrite Nat.add_0_r in E. rewrite E. simpl. now rewrite <- app_assoc.
Qed.

Lemma write_chars_frame (cs : list ascii) :
  forall (pre old : buffer) (p : Z),
    p = Z.of_nat (length pre) -> (length cs <= length old)%nat ->
    details.write_chars cs p (pre ++ old)
    = Ok (tt, (pre ++ cs) ++ drop (length cs) old).
Proof.
  induction cs as [| c cs IH]; intros pre old p Hp Hlen; simpl in *.
  - unfold ret. now rewrite app_nil_r, drop_0.
  - unfold bind. rewrite (store_frame pre old c p Hp) by lia.
    rewrite IH.
    + rewrite drop_drop. now rewrite <- (app_assoc pre [c] cs).
    + rewrite length_app. simpl. lia.
    + rewrite length_drop. lia.
Qed.

Lemma fill_frame (n : nat) (c : ascii) :
  forall (pre old : buffer) (p : Z),
    p = Z.of_nat (length pre) -> (n <= length old)%nat ->
    fill n c p (pre ++ old)
    = Ok (p + Z.of_nat n, (pre ++ replicate n c) ++ drop n old).
Proof.
  induction n as [| n IH]; intros pre old p Hp Hlen.
  - simpl. unfold ret. rewrite app_nil_r, drop_0. do 2 f_equal. lia.
  - simpl fill. unfold bind. rewrite (store_frame pre old c p Hp) by lia.
    rewrite IH.
    + rewrite drop_drop. simpl replicate.
      rewrite <- (app_assoc pre [c]). simpl. do 2 f_equal. lia.
    + rewrite length_app. simpl. lia.
    + rewrite length_drop. lia.
Qed.

Lemma put_sign_frame (sign : ascii) (pre old : buffer) (p : Z) :
  p = Z.of_nat (length pre) -> (length (sign_chars sign) <= length old)%nat ->
  put_sign sign p (pre ++ old)
  = Ok (p + Z.of_nat (length (sign_chars sign)),
        (pre ++ sign_chars sign) ++ drop (length (sign_chars sign)) old).
Proof.
  intros Hp Hlen. unfold put_sign, sign_chars in *.
  destruct (is_nul sign); simpl in *.
  - unfold ret. rewrite app_nil_r, drop_0. do 2 f_equal. lia.
  - unfold bind. rewrite (store_frame pre old sign p Hp) by lia. reflexivity.
Qed.

Lemma digit_string_length (b : Z) (upper : bool) (x : Z) (count : nat) :
  length (details.digit_string b upper x count) = count.
Proof.
  revert x. induction count as [| k IH]; intros x; simpl; [reflexivity |].
  rewrite length_app, IH. simpl. lia.
Qed.

(** ** Buffer extents *)

Lemma keeps_extent_ret {A : Type} (a : A) : keeps_extent (ret a).
Proof. intros b b' a' H. injection H as _ <-. reflexivity. Qed.

Lemma keeps_extent_bind {A B : Type} (m : M A) (k : A -> M B) :
  keeps_extent m -> (forall a, keeps_extent (k a)) -> keeps_extent (bind m k).
Proof.
  intros Hm Hk b b' r H. unfold bind in H.
  destruct (m b) as [[a b1] | |] eqn:E; try discriminate.
  rewrite (Hk a _ _ _ H). exact (Hm _ _ _ E).
Qed.

Lemma keeps_extent_assert (c : bool) : keeps_extent (assert c).
Proof.
  intros b b' a H. unfold assert in H. destruct c; [| discriminate].
  injection H as _ <-. reflexivity.
Qed.

Lemma keeps_extent_store (p : Z) (c : ascii) : keeps_extent (store p c).
Proof.
  intros b b' a H. unfold store in H.
  destruct (_ && _); [| discriminate].
  injection H as _ <-. apply length_insert.
Qed.

Lemma keeps_extent_write_chars (cs : list ascii) (p : Z) :
  keeps_extent (details.write_chars cs p).
Proof.
  revert p. induction cs as [| c cs IH]; intros p; simpl.
  - apply keeps_extent_ret.
  - apply keeps_extent_bind; [apply keeps_extent_store | intros _; apply IH].
Qed.

Lemma keeps_extent_fill (n : nat) (c : ascii) (p : Z) :
  keeps_extent (fill n c p).
Proof.
  revert p. induction n as [| n IH]; intros p; simpl.
  - apply keeps_extent_ret.
  - apply keeps_extent_bind; [apply keeps_extent_store | intros _; apply IH].
Qed.

Lemma keeps_extent_put_sign (sign : ascii) (p : Z) :
  keeps_extent (put_sign sign p).
Proof.
  unfold put_sign. destruct (is_nul sign).
  - apply keeps_extent_ret.
  - apply keeps_extent_bind; [apply keeps_extent_store | intros _; apply keeps_extent_ret].
Qed.

Create HintDb extent.
#[local] Hint Resolve keeps_extent_ret keeps_extent_assert keeps_extent_store
  keeps_extent_write_chars keeps_extent_fill keeps_extent_put_sign : extent.

Ltac extent :=
  repeat first
    [ apply keeps_extent_bind; [| intros ? ]
    | match goal with |- keeps_extent (if ?c then _ else _) => destruct c end
    | match goal with |- keeps_extent (let '(_, _) := ?r in _) => destruct r end
    | solve [ auto with extent ] ].

Lemma int_formatted_write_extent (f : int_formatter.t) (x buf_len : Z) :
  keeps_extent (int_formatter.formatted_write f x buf_len).
Proof.
  unfold int_formatter.formatted_write, details.extract_digits. cbv zeta. extent.
Qed.

Lemma default_int_formatted_write_extent
  (f : default_int_formatter.t) (x buf_len : Z) :
  keeps_extent (default_int_formatter.formatted_write f x buf_len).
Proof.
  unfold default_int_formatter.formatted_write, details.extract_digits_dec.
  cbv zeta. extent.
Qed.

#[export] Instance int_formatter_extent : FormatterExtent int_formatter.t Z.
Proof. exact int_formatted_write_extent. Qed.

#[export] Instance default_int_formatter_extent
  : FormatterExtent default_int_formatter.t Z.
Proof. exact default_int_formatted_write_extent. Qed.

(** ** The layout the integer formatter writes *)

Lemma sign_chars_length (f : int_formatter.t) (x : Z) :
  Z.of_nat (length (sign_chars (int_formatter.sign_of f x))) = sign_width f x.
Proof.
  unfold sign_width, int_formatter.sign_of.
  destruct (x <? 0); [reflexivity |].
  destruct (int_formatter.any f plus_sign); reflexivity.
Qed.

Lemma is_nul_sign_width (f : int_formatter.t) (x : Z) :
  (if is_nul (int_formatter.sign_of f x) then 0 else 1) = sign_width f x.
Proof.
  unfold sign_width, int_formatter.sign_of.
  destruct (x <? 0); [reflexivity |].
  destruct (int_formatter.any f plus_sign); reflexivity.
Qed.

Lemma sign_width_range (f : int_formatter.t) (x : Z) : 0 <= sign_width f x <= 1.
Proof. unfold sign_width. destruct (_ || _); lia. Qed.

Lemma int_max_formatted_length_eq (f : int_formatter.t) (x : Z) :
  integral_value x ->
  int_formatter.max_formatted_length f x
  = Z.max (int_formatter.width_ f)
          (ndigits x (int_formatter.base_ f) + sign_width f x).
Proof.
  intros Hx. pose proof (ndigits_range x (int_formatter.base_ f) Hx) as Hnd.
  unfold int_formatter.max_formatted_length, sign_width.
  destruct (_ || _).
  - rewrite size_wrap_small by lia.
    destruct (Z.gtb_spec (ndigits x (int_formatter.base_ f) + 1) (int_formatter.width_ f)); lia.
  - rewrite Z.add_0_r.
    destruct (Z.gtb_spec (ndigits x (int_formatter.base_ f)) (int_formatter.width_ f)); lia.
Qed.

Lemma int_layout_length (f : int_formatter.t) (x : Z) :
  integral_value x ->
  Z.of_nat (length (int_layout f x)) = int_formatter.max_formatted_length f x.
Proof.
  intros Hx. rewrite int_max_formatted_length_eq by assumption.
  pose proof (ndigits_range x (int_formatter.base_ f) Hx) as Hnd.
  pose proof (sign_chars_length f x) as Hs.
  pose proof (sign_width_range f x) as Hsw.
  unfold int_layout. cbv zeta. rewrite Hs.
  destruct (Z.gtb_spec (int_formatter.width_ f)
              (ndigits x (int_formatter.base_ f) + sign_width f x)) as [Hw | Hw].
  - destruct (int_formatter.any f pad_zeros);
      rewrite !length_app, length_replicate, digit_string_length; lia.
  - rewrite length_app, digit_string_length. lia.
Qed.

(** ** What the integer formatter writes *)

(** The steps after the sign and the padding: digits, terminator, and the
    returned length. *)
Lemma write_digits_tail (m : M Z) (pfx ds : list ascii) (nd : Z) (b : buffer) :
  m b = Ok (Z.of_nat (length pfx), pfx ++ drop (length pfx) b) ->
  nd = Z.of_nat (length ds) ->
  (length (pfx ++ ds) < length b)%nat ->
  (p <- m ;;
   (assert true ;;; details.write_chars ds p) ;;;
   store (p + nd) NUL ;;;
   ret (p + nd)) b
  = Ok (Z.of_nat (length (pfx ++ ds)),
        (pfx ++ ds) ++ NUL :: drop (S (length (pfx ++ ds))) b).
Proof.
  intros Hm Hnd Hlen. rewrite length_app in *.
  unfold bind at 1. rewrite Hm.
  unfold bind at 1. unfold bind at 1. unfold assert at 1.
  rewrite (write_chars_frame ds pfx (drop (length pfx) b) _ eq_refl)
    by (rewrite length_drop; lia).
  unfold bind at 1.
  rewrite (store_frame (pfx ++ ds) (drop (length ds) (drop (length pfx) b)) NUL).
  - unfold ret. rewrite !drop_drop.
    replace (length pfx + (length ds + 1))%nat with (S (length pfx + length ds)) by lia.
    replace (Z.of_nat (length pfx) + nd) with (Z.of_nat (length pfx + length ds)) by lia.
    now rewrite <- app_assoc.
  - rewrite length_app. lia.
  - rewrite !length_drop. lia.
Qed.

Lemma fill_start (n : nat) (c : ascii) (b : buffer) :
  (n <= length b)%nat ->
  fill n c 0 b = Ok (Z.of_nat n, replicate n c ++ drop n b).
Proof. intros H. exact (fill_frame n c [] b 0 eq_refl H). Qed.

Lemma put_sign_start (sign : ascii) (b : buffer) :
  (length (sign_chars sign) <= length b)%nat ->
  put_sign sign 0 b
  = Ok (Z.of_nat (length (sign_chars sign)),
        sign_chars sign ++ drop (length (sign_chars sign)) b).
Proof. intros H. exact (put_sign_frame sign [] b 0 eq_refl H). Qed.

Lemma int_formatted_write_layout (f : int_formatter.t) (x buf_len : Z) (b : buffer) :
  integral_value x ->
  details.supported_base (int_formatter.base_ f) = true ->
  ndigits x (int_formatter.base_ f) + sign_width f x < buf_len ->
  (length (int_layout f x) < length b)%nat ->
  int_formatter.formatted_write f x buf_len b
  = Ok (Z.of_nat (length (int_layout f x)),
        int_layout f x ++ NUL :: drop (S (length (int_layout f x))) b).
Proof.
  intros Hx Hbase Hbuf Hcap.
  pose proof (ndigits_range x (int_formatter.base_ f) Hx) as Hnd.
  pose proof (sign_chars_length f x) as Hs.
  pose proof (sign_width_range f x) as Hsw.
  revert Hcap.
  unfold int_formatter.formatted_write, int_layout, details.extract_digits.
  cbv zeta. rewrite ndigits_uabs, is_nul_sign_width, Hs, Hbase.
  rewrite size_wrap_small by lia.
  set (nd := ndigits x (int_formatter.base_ f)) in *.
  set (sc := sign_chars (int_formatter.sign_of f x)) in *.
  set (ds := details.digit_string _ _ _ _).
  assert (Hds : nd = Z.of_nat (length ds))
    by (unfold ds; rewrite digit_string_length; lia).
  unfold bind at 1, assert at 1.
  replace (buf_len >? nd + sign_width f x) with true
    by (symmetry; apply Z.gtb_lt; lia).
  set (pad := Z.to_nat (int_formatter.width_ f - (nd + sign_width f x))).
  destruct (int_formatter.width_ f >? nd + sign_width f x);
    [destruct (int_formatter.any f pad_zeros) |]; intros Hcap.
  - rewrite (app_assoc sc) in *. rewrite !length_app, length_replicate in Hcap.
    apply write_digits_tail; [| exact Hds | rewrite !length_app, length_replicate; lia].
    unfold bind.
    rewrite put_sign_start by (fold sc; lia). fold sc.
    rewrite (fill_frame pad "0"%char sc (drop (length sc) b) _ eq_refl)
      by (rewrite length_drop; lia).
    rewrite drop_drop, length_app, length_replicate.
    do 2 f_equal. lia.
  - rewrite (app_assoc _ sc) in *. rewrite !length_app, length_replicate in Hcap.
    apply write_digits_tail; [| exact Hds | rewrite !length_app, length_replicate; lia].
    unfold bind.
    rewrite fill_start by lia.
    rewrite (put_sign_frame _ (replicate pad " "%char) (drop pad b))
      by (rewrite ?length_drop, ?length_replicate; fold sc; lia).
    fold sc. rewrite drop_drop, length_app, length_replicate.
    do 2 f_equal. lia.
  - rewrite !length_app in Hcap.
    apply write_digits_tail; [| exact Hds | rewrite !length_app; lia].
    rewrite put_sign_start by (fold sc; lia). reflexivity.
Qed.

(** ** What the default integer formatter writes *)

Lemma default_int_layout_length (x : Z) :
  integral_value x ->
  Z.of_nat (length (default_int_layout x))
  = default_int_formatter.max_formatted_length default_int_fmt x.
Proof.
  intros Hx. pose proof (ndigits_base_range 10 _ (uabs_range x Hx)) as Hnd.
  unfold default_int_layout, default_int_formatter.max_formatted_length.
  unfold details.ndigits_dec in *. cbv zeta.
  rewrite length_app, digit_string_length.
  destruct (x <? 0); simpl length.
  - rewrite size_wrap_small by lia. lia.
  - lia.
Qed.

Lemma store_start (c : ascii) (b : buffer) :
  (0 < length b)%nat -> store 0 c b = Ok (tt, [c] ++ drop 1 b).
Proof. intros H. exact (store_frame [] b c 0 eq_refl H). Qed.

Lemma write_chars_start (cs : list ascii) (b : buffer) :
  (length cs <= length b)%nat ->
  details.write_chars cs 0 b = Ok (tt, cs ++ drop (length cs) b).
Proof. intros H. exact (write_chars_frame cs [] b 0 eq_refl H). Qed.

Lemma default_int_formatted_write_layout (x buf_len : Z) (b : buffer) :
  integral_value x ->
  default_int_formatter.max_formatted_length default_int_fmt x < buf_len ->
  (length (default_int_layout x) < length b)%nat ->
  default_int_formatter.formatted_write default_int_fmt x buf_len b
  = Ok (Z.of_nat (length (default_int_layout x)),
        default_int_layout x ++ NUL :: drop (S (length (default_int_layout x))) b).
Proof.
  intros Hx Hbuf Hcap.
  pose proof (ndigits_base_range 10 _ (uabs_range x Hx)) as Hnd.
  pose proof (default_int_layout_length x Hx) as Hlen.
  revert Hbuf Hcap Hlen.
  unfold default_int_formatter.formatted_write, default_int_layout,
    default_int_formatter.max_formatted_length, details.extract_digits_dec.
  unfold details.ndigits_dec in *. cbv zeta.
  set (nd := details.ndigits_base 10 (details.uabs x)) in *.
  set (ds := details.digit_string _ _ _ _).
  assert (Hds : nd = Z.of_nat (length ds))
    by (unfold ds; rewrite digit_string_length; lia).
  destruct (x <? 0); rewrite ?size_wrap_small by lia; intros Hbuf Hcap Hlen;
    rewrite length_app in *; simpl length in *.
  - unfold bind at 1. unfold bind at 1. unfold assert at 1.
    replace (buf_len >? nd + 1) with true by (symmetry; apply Z.gtb_lt; lia).
    unfold bind at 1.
    rewrite store_start by lia.
    unfold ret at 1. cbv beta iota.
    unfold bind at 1.
    rewrite (write_chars_frame ds ["-"%char] (drop 1 b) 1 eq_refl)
      by (rewrite length_drop; lia).
    unfold bind at 1.
    rewrite (store_frame (["-"%char] ++ ds) (drop (length ds) (drop 1 b)) NUL).
    + unfold ret. rewrite !drop_drop, <- app_assoc. simpl app.
      repeat f_equal; lia.
    + rewrite length_app. simpl length. lia.
    + rewrite !length_drop. lia.
  - unfold bind at 1. unfold bind at 1. unfold assert at 1.
    replace (buf_len >? nd) with true by (symmetry; apply Z.gtb_lt; lia).
    unfold ret at 1. cbv beta iota.
    unfold bind at 1.
    rewrite write_chars_start by lia.
    unfold bind at 1.
    rewrite (store_frame ds (drop (length ds) b) NUL).
    + unfold ret. rewrite drop_drop, <- app_assoc. simpl app.
      repeat f_equal; lia.
    + simpl. lia.
    + rewrite !length_drop. lia.
Qed.

Example ndigits_examples :
  ndigits 0 10 = 1 /\ ndigits 255 16 = 2 /\ ndigits (-255) 8 = 3 /\
  ndigits 255 2 = 0 /\ ndigits (2 ^ 64 - 1) 10 = 20.
Proof. repeat split; vm_compute; reflexivity. Qed.

Lemma ndigits_is_digit_count (x b : Z) :
  details.supported_base b = true -> is_digit_count b (Z.abs x) (ndigits x b).
Proof.
  intros Hb. rewrite ndigits_supported by assumption. rewrite uabs_abs.
  apply ndigits_base_spec; [now apply supported_base_ge2 | lia].
Qed.

(** * The claims *)

(** C6: [ndigits(x, b)] is 0 for every base [b] other than 8, 10 and 16,
    and for these three bases it is the number of digits of the magnitude
    of [x] in base [b]. *)
Theorem ndigits_digit_count (x b : Z) :
  (details.supported_base b = false -> ndigits x b = 0) /\
  (details.supported_base b = true -> is_digit_count b (Z.abs x) (ndigits x b)).
Proof.
  split; intros Hb.
  - unfold details.supported_base in Hb. unfold ndigits.
    destruct (b =? 8); [discriminate |].
    destruct (b =? 10); [discriminate |].
    destruct (b =? 16); [discriminate | reflexivity].
  - now apply ndigits_is_digit_count.
Qed.

Lemma ndigits_digit_count_witness :
  ndigits (-255) 7 = 0 /\ is_digit_count 16 (Z.abs (-255)) (ndigits (-255) 16).
Proof.
  split.
  - apply (proj1 (ndigits_digit_count (-255) 7)). reflexivity.
  - apply (proj2 (ndigits_digit_count (-255) 16)). reflexivity.
Defined.

(** C3: for a base among 8, 10 and 16, [max_formatted_length(x)] of the
    integer formatter is [max(w, d + s)]: [w] the minimum width, [d] the
    number of digits of [|x|] in the base, and [s] 1 when [x] is negative
    or the plus-sign flag is set, else 0. *)
Theorem int_max_formatted_length_spec (f : int_formatter.t) (x : Z) :
  integral_value x ->
  details.supported_base (int_formatter.base_ f) = true ->
  exists d : Z,
    is_digit_count (int_formatter.base_ f) (Z.abs x) d /\
    int_formatter.max_formatted_length f x
    = Z.max (int_formatter.width_ f)
            (d + (if (x <? 0) || int_formatter.any f plus_sign then 1 else 0)).
Proof.
  intros Hx Hb. exists (ndigits x (int_formatter.base_ f)). split.
  - now apply ndigits_is_digit_count.
  - now apply int_max_formatted_length_eq.
Qed.

Lemma int_max_formatted_length_spec_witness :
  exists d : Z,
    is_digit_count 16 (Z.abs (-255)) d /\
    int_formatter.max_formatted_length (int_formatter.Build 16 2 plus_sign) (-255)
    = Z.max 2 (d + 1).
Proof.
  apply (int_max_formatted_length_spec (int_formatter.Build 16 2 plus_sign) (-255)).
  - unfold integral_value. lia.
  - reflexivity.
Defined.

(** C9: for a base among 8, 10 and 16 and a buffer that is large enough,
    [formatted_write] of the integer formatter returns exactly
    [max_formatted_length(x)]. *)
Theorem int_formatted_write_returns_bound
  (f : int_formatter.t) (x buf_len : Z) (b : buffer) :
  integral_value x ->
  details.supported_base (int_formatter.base_ f) = true ->
  int_formatter.max_formatted_length f x + 1 <= buf_len ->
  buf_len <= Z.of_nat (length b) ->
  exists b' : buffer,
    int_formatter.formatted_write f x buf_len b
    = Ok (int_formatter.max_formatted_length f x, b').
Proof.
  intros Hx Hb Hlen Hcap.
  pose proof (int_layout_length f x Hx) as HL.
  pose proof (int_max_formatted_length_eq f x Hx) as HM.
  rewrite <- HL. eexists.
  apply int_formatted_write_layout; [assumption | assumption | lia | lia].
Qed.

Lemma int_formatted_write_returns_bound_witness :
  exists b' : buffer,
    int_formatter.formatted_write (int_formatter.Build 10 5 pad_zeros) (-42) 6
      (replicate 6 "x"%char)
    = Ok (int_formatter.max_formatted_length
            (int_formatter.Build 10 5 pad_zeros) (-42), b').
Proof.
  apply (int_formatted_write_returns_bound
           (int_formatter.Build 10 5 pad_zeros) (-42) 6 (replicate 6 "x"%char)).
  - unfold integral_value. lia.
  - reflexivity.
  - vm_compute. discriminate.
  - vm_compute. discriminate.
Defined.

(** What a buffer looks like after the characters [out] and a terminator
    were written at its start. *)
Lemma written_buffer (out : list ascii) (b : buffer) :
  (length out < length b)%nat ->
  let b' := out ++ NUL :: drop (S (length out)) b in
  length b' = length b /\
  take (length out) b' = out /\
  b' !! length out = Some NUL /\
  drop (S (length out)) b' = drop (S (length out)) b.
Proof.
  intros Hlen b'. unfold b'. repeat split.
  - rewrite length_app. simpl. rewrite length_drop. lia.
  - apply take_app_length.
  - now apply list_lookup_middle.
  - rewrite (cons_middle NUL), app_assoc.
    apply drop_app_length'. rewrite length_app. simpl. lia.
Qed.

(** X17: with a buffer of capacity at least [max_formatted_length(x) + 1],
    [formatted_write] of the integer formatter and of the default integer
    formatter succeeds, returns at most [max_formatted_length(x)]
    characters, ends them with the terminator, and leaves the buffer past
    the first [max_formatted_length(x) + 1] characters as it was. *)
Theorem int_formatted_write_within_bound
  (f : int_formatter.t) (x buf_len : Z) (b : buffer) :
  integral_value x ->
  details.supported_base (int_formatter.base_ f) = true ->
  buf_len <= Z.of_nat (length b) ->
  (int_formatter.max_formatted_length f x + 1 <= buf_len ->
   exists (n : Z) (b' : buffer),
     int_formatter.formatted_write f x buf_len b = Ok (n, b') /\
     0 <= n <= int_formatter.max_formatted_length f x /\
     length b' = length b /\
     b' !! Z.to_nat n = Some NUL /\
     drop (Z.to_nat (int_formatter.max_formatted_length f x + 1)) b'
     = drop (Z.to_nat (int_formatter.max_formatted_length f x + 1)) b) /\
  (default_int_formatter.max_formatted_length default_int_fmt x + 1 <= buf_len ->
   exists (n : Z) (b' : buffer),
     default_int_formatter.formatted_write default_int_fmt x buf_len b
     = Ok (n, b') /\
     0 <= n <= default_int_formatter.max_formatted_length default_int_fmt x /\
     length b' = length b /\
     b' !! Z.to_nat n = Some NUL /\
     drop (Z.to_nat
             (default_int_formatter.max_formatted_length default_int_fmt x + 1)) b'
     = drop (Z.to_nat
               (default_int_formatter.max_formatted_length default_int_fmt x + 1)) b).
Proof.
  intros Hx Hb Hcap. split; intros Hlen.
  - pose proof (int_layout_length f x Hx) as HL.
    pose proof (int_max_formatted_length_eq f x Hx) as HM.
    assert (Hout : (length (int_layout f x) < length b)%nat) by lia.
    destruct (written_buffer _ b Hout) as (E1 & _ & E3 & E4).
    eexists _, _. split.
    + apply int_formatted_write_layout; [assumption | assumption | lia | lia].
    + rewrite <- HL, Nat2Z.id.
      replace (Z.to_nat (Z.of_nat (length (int_layout f x)) + 1))
        with (S (length (int_layout f x))) by lia.
      repeat split; [lia | lia | exact E1 | exact E3 | exact E4].
  - pose proof (default_int_layout_length x Hx) as HL.
    assert (Hout : (length (default_int_layout x) < length b)%nat) by lia.
    destruct (written_buffer _ b Hout) as (E1 & _ & E3 & E4).
    eexists _, _. split.
    + apply default_int_formatted_write_layout; [assumption | lia | lia].
    + rewrite <- HL, Nat2Z.id.
      replace (Z.to_nat (Z.of_nat (length (default_int_layout x)) + 1))
        with (S (length (default_int_layout x))) by lia.
      repeat split; [lia | lia | exact E1 | exact E3 | exact E4].
Qed.

Lemma int_formatted_write_within_bound_witness :
  (exists (n : Z) (b' : buffer),
     int_formatter.formatted_write (int_formatter.Build 10 5 0) (-42) 6
       (replicate 6 "x"%char) = Ok (n, b') /\
     0 <= n <= int_formatter.max_formatted_length (int_formatter.Build 10 5 0) (-42) /\
     length b' = length (replicate 6 "x"%char) /\
     b' !! Z.to_nat n = Some NUL /\
     drop (Z.to_nat
             (int_formatter.max_formatted_length (int_formatter.Build 10 5 0) (-42) + 1)) b'
     = drop (Z.to_nat
               (int_formatter.max_formatted_length (int_formatter.Build 10 5 0) (-42) + 1))
            (replicate 6 "x"%char)) /\
  (exists (n : Z) (b' : buffer),
     default_int_formatter.formatted_write default_int_fmt (-42) 6
       (replicate 6 "x"%char) = Ok (n, b') /\
     0 <= n <= default_int_formatter.max_formatted_length default_int_fmt (-42) /\
     length b' = length (replicate 6 "x"%char) /\
     b' !! Z.to_nat n = Some NUL /\
     drop (Z.to_nat
             (default_int_formatter.max_formatted_length default_int_fmt (-42) + 1)) b'
     = drop (Z.to_nat
               (default_int_formatter.max_formatted_length default_int_fmt (-42) + 1))
            (replicate 6 "x"%char)).
Proof.
  assert (H1 : integral_value (-42)) by (unfold integral_value; lia).
  assert (H2 : details.supported_base
                 (int_formatter.base_ (int_formatter.Build 10 5 0)) = true)
    by reflexivity.
  assert (H3 : 6 <= Z.of_nat (length (replicate 6 "x"%char)))
    by (vm_compute; discriminate).
  destruct (int_formatted_write_within_bound
              (int_formatter.Build 10 5 0) (-42) 6 (replicate 6 "x"%char) H1 H2 H3)
    as [Hint Hdef].
  split.
  - apply Hint. vm_compute. discriminate.
  - apply Hdef. vm_compute. discriminate.
Defined.

(** ** The digits that are written *)

Lemma digit_value_digit_char (upper : bool) (v : Z) :
  0 <= v < 16 -> digit_value (details.digit_char upper v) = v.
Proof.
  intros Hv. unfold digit_value, details.digit_char.
  destruct (Z.ltb_spec v 10); [| destruct upper]; cbv zeta;
    rewrite nat_ascii_embedding by lia; rewrite Z2Nat.id by lia;
    repeat match goal with |- context [?a <? ?c] => destruct (Z.ltb_spec a c) end;
    lia.
Qed.

Lemma digits_value_digit_string (b : Z) (upper : bool) (count : nat) :
  2 <= b <= 16 ->
  forall x : Z, 0 <= x ->
    digits_value b (details.digit_string b upper x count)
    = x mod b ^ Z.of_nat count.
Proof.
  intros Hb. induction count as [| k IH]; intros x Hx.
  - simpl. now rewrite Z.mod_1_r.
  - simpl details.digit_string. unfold digits_value in *.
    rewrite fold_left_app. simpl fold_left.
    rewrite IH by (apply Z.div_pos; lia).
    rewrite digit_value_digit_char
      by (pose proof (Z.mod_pos_bound x b ltac:(lia)); lia).
    rewrite Nat2Z.inj_succ, Z.pow_succ_r by lia.
    rewrite Z.rem_mul_r by (try apply Z.pow_pos_nonneg; lia). lia.
Qed.

Lemma digits_of_magnitude (b : Z) (upper : bool) (u : Z) :
  details.supported_base b = true -> 0 <= u ->
  digits_value b
    (details.digit_string b upper u (Z.to_nat (details.ndigits_base b u))) = u.
Proof.
  intros Hb Hu.
  assert (Hb' : 2 <= b <= 16).
  { unfold details.supported_base in Hb.
    destruct (Z.eqb_spec b 8); [lia |]. destruct (Z.eqb_spec b 10); [lia |].
    destruct (Z.eqb_spec b 16); [lia | discriminate]. }
  destruct (ndigits_base_spec b u ltac:(lia) Hu) as (Hd & Hup & _).
  rewrite digits_value_digit_string by assumption.
  rewrite Z2Nat.id by lia. apply Z.mod_small. lia.
Qed.

Lemma sign_chars_sign_text (f : int_formatter.t) (x : Z) :
  sign_chars (int_formatter.sign_of f x) = sign_text f x.
Proof.
  unfold sign_text, int_formatter.sign_of.
  destruct (x <? 0); [reflexivity |].
  destruct (int_formatter.any f plus_sign); reflexivity.
Qed.

(** C4: when the minimum width exceeds the signed digit count [d + s],
    the integer formatter writes, with the zero-pad flag, the sign (when
    present), then the fill zeros, then the digits; without it, the fill
    spaces, then the sign (when present), then the digits. *)
Theorem int_formatted_write_padding
  (f : int_formatter.t) (x buf_len : Z) (b : buffer) (d : Z) :
  integral_value x ->
  details.supported_base (int_formatter.base_ f) = true ->
  int_formatter.max_formatted_length f x + 1 <= buf_len ->
  buf_len <= Z.of_nat (length b) ->
  is_digit_count (int_formatter.base_ f) (Z.abs x) d ->
  int_formatter.width_ f > d + Z.of_nat (length (sign_text f x)) ->
  exists (n : Z) (b' digits : list ascii),
    int_formatter.formatted_write f x buf_len b = Ok (n, b') /\
    Z.of_nat (length digits) = d /\
    digits_value (int_formatter.base_ f) digits = Z.abs x /\
    take (Z.to_nat n) b'
    = let pad :=
        Z.to_nat (int_formatter.width_ f
                  - (d + Z.of_nat (length (sign_text f x)))) in
      if int_formatter.any f pad_zeros
      then sign_text f x ++ replicate pad "0"%char ++ digits
      else replicate pad " "%char ++ sign_text f x ++ digits.
Proof.
  intros Hx Hb Hlen Hcap Hd Hw.
  pose proof (int_layout_length f x Hx) as HL.
  pose proof (ndigits_range x (int_formatter.base_ f) Hx) as Hnd.
  assert (Hd' : d = ndigits x (int_formatter.base_ f)).
  { apply (is_digit_count_unique (int_formatter.base_ f) (Z.abs x));
      [now apply supported_base_ge2 | assumption |].
    apply ndigits_is_digit_count; assumption. }
  assert (Hout : (length (int_layout f x) < length b)%nat) by lia.
  destruct (written_buffer _ b Hout) as (_ & E2 & _).
  exists (Z.of_nat (length (int_layout f x))),
    (int_layout f x ++ NUL :: drop (S (length (int_layout f x))) b),
    (details.digit_string (int_formatter.base_ f)
       (int_formatter.any f upper_case) (details.uabs x)
       (Z.to_nat (ndigits x (int_formatter.base_ f)))).
  split; [| split; [| split]].
  - apply int_formatted_write_layout; try assumption.
    + pose proof (int_max_formatted_length_eq f x Hx). lia.
  - rewrite digit_string_length. lia.
  - rewrite ndigits_supported by assumption. rewrite <- uabs_abs.
    apply digits_of_magnitude; [assumption |]. rewrite uabs_abs. lia.
  - rewrite Nat2Z.id, E2. unfold int_layout. cbv zeta.
    rewrite sign_chars_sign_text, <- Hd'.
    replace (int_formatter.width_ f >? d + Z.of_nat (length (sign_text f x)))
      with true by (symmetry; apply Z.gtb_lt; lia).
    reflexivity.
Qed.

Lemma int_formatted_write_padding_witness :
  exists (n : Z) (b' digits : list ascii),
    int_formatter.formatted_write (int_formatter.Build 10 6 pad_zeros) (-42) 7
      (replicate 7 "x"%char) = Ok (n, b') /\
    Z.of_nat (length digits) = 2 /\
    digits_value 10 digits = Z.abs (-42) /\
    take (Z.to_nat n) b'
    = ["-"%char] ++ replicate 3 "0"%char ++ digits.
Proof.
  apply (int_formatted_write_padding
           (int_formatter.Build 10 6 pad_zeros) (-42) 7 (replicate 7 "x"%char) 2).
  - unfold integral_value. lia.
  - reflexivity.
  - vm_compute. discriminate.
  - vm_compute. discriminate.
  - unfold is_digit_count. simpl. lia.
  - reflexivity.
Defined.

(** ** [strf] and [str] *)

Lemma string_of_list_ascii_length (l : list ascii) :
  String.length (string_of_list_ascii l) = length l.
Proof. induction l as [| c l IH]; simpl; [reflexivity | now rewrite IH]. Qed.

(** C8: when [formatted_write] stays within the bound, [strf(x, fmt)]
    returns the first [wlen] characters that were written, [wlen] being
    the value [formatted_write] returned: its length is [wlen], which is
    at most [max_formatted_length(x)]. *)
Theorem strf_length {F T : Type} `{FormatterExtent F T}
  (x : T) (fmt : F) (wlen : Z) (b' : buffer) :
  formatted_write fmt x (size_wrap (max_formatted_length fmt x + 1))
    (replicate (Z.to_nat (max_formatted_length fmt x)) NUL ++ [NUL])
  = Ok (wlen, b') ->
  0 <= wlen <= max_formatted_length fmt x ->
  exists s : string,
    strf x fmt = Ok s /\
    s = string_of_list_ascii (take (Z.to_nat wlen) b') /\
    Z.of_nat (String.length s) = wlen /\
    wlen <= max_formatted_length fmt x.
Proof.
  intros Hw Hle.
  pose proof (formatted_write_extent _ _ _ _ _ _ Hw) as Hext.
  rewrite length_app, length_replicate in Hext. simpl in Hext.
  exists (string_of_list_ascii (take (Z.to_nat wlen) b')).
  split; [| split; [reflexivity | split]].
  - unfold strf. cbv zeta. rewrite Hw.
    replace (wlen <=? max_formatted_length fmt x) with true
      by (symmetry; apply Z.leb_le; lia).
    f_equal. f_equal.
    destruct (Z.ltb_spec wlen (max_formatted_length fmt x)) as [Hlt | Hge].
    + unfold string_resize. rewrite resize_le by (rewrite length_take; lia).
      rewrite take_take. f_equal. lia.
    + f_equal. lia.
  - rewrite string_of_list_ascii_length, length_take. lia.
  - lia.
Qed.

Lemma strf_length_witness :
  exists s : string,
    strf 42 (int_formatter.Build 10 5 pad_zeros) = Ok s /\
    s = string_of_list_ascii (take (Z.to_nat 5) (list_ascii_of_string "00042" ++ [NUL])) /\
    Z.of_nat (String.length s) = 5 /\
    5 <= max_formatted_length (int_formatter.Build 10 5 pad_zeros) 42.
Proof.
  apply (strf_length 42 (int_formatter.Build 10 5 pad_zeros) 5
           (list_ascii_of_string "00042" ++ [NUL])).
  - reflexivity.
  - vm_compute. split; discriminate.
Defined.

(** C5: the integer examples of the spec. *)
Theorem integer_formatting_examples :
  str 0 = Ok "0"%string /\
  str (-5) = Ok "-5"%string /\
  strf 255 (int_formatter.or hex_fmt upper_case) = Ok "FF"%string /\
  strf 42 (int_formatter.or (int_formatter.width dec_fmt 5) pad_zeros)
  = Ok "00042"%string /\
  strf 42 (int_formatter.width dec_fmt 5) = Ok "   42"%string /\
  strf 7 (int_formatter.or dec_fmt plus_sign) = Ok "+7"%string.
Proof. repeat split; vm_compute; reflexivity. Qed.

(** ** The length bound of the bounded-precision float formatter *)

(** The assertion in the last branch of [max_formatted_length] never
    fails. *)
Lemma nan_when_neither (x : ieee.double) :
  ieee.isfinite x = false -> ieee.isinf x = false -> ieee.isnan x = true.
Proof.
  unfold ieee.isfinite, ieee.isinf, ieee.isnan.
  destruct (ieee.exponent_bits x =? 2047); [| discriminate].
  destruct (ieee.fraction_bits x =? 0); [discriminate | reflexivity].
Qed.

(** C1 fails on the code for the fixed and scientific float formatters.
    For a NaN with the sign bit set and no plus-sign flag
    [max_formatted_length] is 3: the NaN branch does not consult the sign
    bit, as the branch for infinities does, which gives 4 for negative
    infinity.  The text of such a NaN, "-nan", has 4 characters. *)
Theorem float_bound_misses_nan_sign
  (maxfmtlength : ieee.double -> Z -> bool -> Z) :
  ieee.isnan ieee.neg_quiet_nan = true /\
  ieee.signbit ieee.neg_quiet_nan = true /\
  float_formatter.max_formatted_length maxfmtlength
    float_formatter.default ieee.neg_quiet_nan = 3 /\
  float_formatter.max_formatted_length maxfmtlength
    float_formatter.default ieee.neg_inf = 4 /\
  float_formatter.max_formatted_length maxfmtlength
    float_formatter.default ieee.neg_quiet_nan
  < Z.of_nat (String.length "-nan").
Proof. repeat split; reflexivity. Qed.

(** C7, as the spec states it, fails for a formatter with a minimum
    width: for positive infinity, no plus-sign flag and width 10 the
    bound is 10, not 3. *)
Lemma float_max_formatted_length_not_3 :
  ieee.isfinite ieee.pos_inf = false /\
  ieee.signbit ieee.pos_inf = false /\
  float_formatter.any (float_formatter.Build 10 6 0) plus_sign = false /\
  float_formatter.max_formatted_length (fun _ _ _ => 0)
    (float_formatter.Build 10 6 0) ieee.pos_inf <> 3.
Proof. repeat split; vm_compute; discriminate. Qed.

(** C7, amended: for a non-finite [x], [max_formatted_length(x)] of the
    fixed or scientific formatter is the larger of the minimum width and
    [n], where [n] is 3 when no sign must be shown and 4 when a negative
    sign or the plus-sign flag requires one.  The case of a NaN with the
    sign bit set and no plus-sign flag is left out. *)
Theorem float_max_formatted_length_nonfinite
  (maxfmtlength : ieee.double -> Z -> bool -> Z)
  (f : float_formatter.t) (x : ieee.double) :
  ieee.isfinite x = false ->
  ieee.isnan x && ieee.signbit x && negb (float_formatter.any f plus_sign)
  = false ->
  float_formatter.max_formatted_length maxfmtlength f x
  = Z.max (float_formatter.width_ f)
          (if ieee.signbit x || float_formatter.any f plus_sign
           then 4 else 3).
Proof.
  intros Hfin Hcase. unfold float_formatter.max_formatted_length. rewrite Hfin.
  pose proof (nan_when_neither x Hfin) as Hnan.
  destruct (ieee.isinf x), (ieee.signbit x), (float_formatter.any f plus_sign);
    try (rewrite Hnan in Hcase by reflexivity; discriminate Hcase);
    simpl;
    match goal with |- context [?a >? ?c] => destruct (Z.gtb_spec a c) end; lia.
Qed.

Lemma float_max_formatted_length_nonfinite_witness :
  float_formatter.max_formatted_length (fun _ _ _ => 0)
    (float_formatter.Build 0 6 0) ieee.neg_inf
  = Z.max 0 4.
Proof.
  apply (float_max_formatted_length_nonfinite (fun _ _ _ => 0)
           (float_formatter.Build 0 6 0) ieee.neg_inf).
  - reflexivity.
  - reflexivity.
Defined.

(** ** The post-decrement of the value-range iterator *)

(** The body of [operator--(int)] is the body of [operator++(int)]. *)
Lemma post_decrement_is_post_increment
  {T : Type} (traits_ : value_range.range_traits T)
  (it : value_range.value_range_iterator) :
  value_range.post_decrement traits_ it = value_range.post_increment traits_ it.
Proof. reflexivity. Qed.

(** C10 fails on the code: [it--] on an [int] iterator at 5 returns an
    iterator at 5 and leaves [it] at 6, where [--it] moves it to 4. *)
Theorem post_decrement_at_5 :
  value_range.post_decrement (value_range.integral_traits value_range.int32)
    (value_range.Iter 5)
  = (value_range.Iter 5, value_range.Iter 6) /\
  value_range.pre_decrement (value_range.integral_traits value_range.int32)
    (value_range.Iter 5)
  = value_range.Iter 4.
Proof. split; reflexivity. Qed.

(** * Further properties *)

(** ** Stores that run out of the buffer *)

Lemma store_past_end (pre : list ascii) (c : ascii) (p : Z) :
  p = Z.of_nat (length pre) -> store p c (pre ++ []) = OutOfBounds.
Proof.
  intros ->. unfold store. rewrite app_nil_r.
  replace (Z.of_nat (length pre) <? Z.of_nat (length pre)) with false
    by (symmetry; apply Z.ltb_ge; lia).
  now rewrite andb_false_r.
Qed.

Lemma writes_ret {A : Type} (a : A) (p : Z) : writes (ret a) p [] a.
Proof.
  intros pre old Hp. split; intros H; simpl in H; [| lia].
  unfold ret. now rewrite app_nil_r, drop_0.
Qed.

Lemma writes_store (p : Z) (c : ascii) : writes (store p c) p [c] tt.
Proof.
  intros pre old Hp. split; intros H; simpl in H.
  - apply store_frame; [assumption | lia].
  - destruct old; [| simpl in H; lia]. now apply store_past_end.
Qed.

Lemma writes_bind {A B : Type} (m : M A) (k : A -> M B)
  (p : Z) (cs cs' : list ascii) (a : A) (a' : B) :
  writes m p cs a ->
  writes (k a) (p + Z.of_nat (length cs)) cs' a' ->
  writes (bind m k) p (cs ++ cs') a'.
Proof.
  intros Hm Hk pre old Hp.
  destruct (Hm pre old Hp) as [Hm1 Hm2].
  assert (Hp' : p + Z.of_nat (length cs) = Z.of_nat (length (pre ++ cs)))
    by (rewrite length_app; lia).
  rewrite length_app. unfold bind.
  destruct (Nat.le_gt_cases (length cs) (length old)) as [Hfit | Hshort].
  - rewrite (Hm1 Hfit).
    destruct (Hk (pre ++ cs) (drop (length cs) old) Hp') as [Hk1 Hk2].
    rewrite length_drop in Hk1, Hk2.
    split; intros H.
    + rewrite Hk1 by lia. rewrite drop_drop. now rewrite <- (app_assoc pre cs cs').
    + apply Hk2. lia.
  - rewrite (Hm2 Hshort). split; intros H; [lia | reflexivity].
Qed.

Lemma writes_write_chars (cs : list ascii) (p : Z) :
  writes (details.write_chars cs p) p cs tt.
Proof.
  revert p. induction cs as [| c cs IH]; intros p.
  - apply writes_ret.
  - simpl details.write_chars. change (c :: cs) with ([c] ++ cs).
    eapply writes_bind; [apply writes_store | apply IH].
Qed.

Lemma writes_fill (n : nat) (c : ascii) (p : Z) :
  writes (fill n c p) p (replicate n c) (p + Z.of_nat n).
Proof.
  revert p. induction n as [| n IH]; intros p.
  - simpl. rewrite Z.add_0_r. apply writes_ret.
  - simpl fill. change (replicate (S n) c) with ([c] ++ replicate n c).
    replace (p + Z.of_nat (S n)) with (p + 1 + Z.of_nat n) by lia.
    eapply writes_bind; [apply writes_store | apply IH].
Qed.

Lemma writes_put_sign (sign : ascii) (p : Z) :
  writes (put_sign sign p) p (sign_chars sign)
    (p + Z.of_nat (length (sign_chars sign))).
Proof.
  unfold put_sign, sign_chars. destruct (is_nul sign).
  - simpl. rewrite Z.add_0_r. apply writes_ret.
  - change [sign] with ([sign] ++ []).
    eapply writes_bind; [apply writes_store | apply writes_ret].
Qed.

Lemma writes_assert_true {A : Type} (m : M A) (p : Z) (cs : list ascii) (a : A) :
  writes m p cs a -> writes (assert true ;;; m) p cs a.
Proof. intros H. exact H. Qed.

Lemma writes_eq {A : Type} (m : M A) (p p' : Z) (cs cs' : list ascii) (a a' : A) :
  p = p' -> cs = cs' -> a = a' -> writes m p cs a -> writes m p' cs' a'.
Proof. now intros -> -> ->. Qed.

(** The integer formatter's steps after the sign and the padding. *)
Lemma writes_digits_tail (m : M Z) (pfx ds : list ascii) (nd q : Z) :
  writes m 0 pfx q ->
  q = Z.of_nat (length pfx) ->
  nd = Z.of_nat (length ds) ->
  writes (p <- m ;;
          (assert true ;;; details.write_chars ds p) ;;;
          store (p + nd) NUL ;;;
          ret (p + nd))
    0 ((pfx ++ ds) ++ [NUL]) (Z.of_nat (length (pfx ++ ds))).
Proof.
  intros Hm Hq Hnd.
  apply (writes_eq _ 0 0 (pfx ++ (ds ++ ([NUL] ++ []))) _ (q + nd) _);
    [reflexivity | now rewrite app_nil_r, app_assoc
    | rewrite length_app; lia |].
  eapply writes_bind; [exact Hm |].
  eapply writes_bind.
  - apply writes_assert_true.
    apply (writes_eq _ q _ ds ds tt tt); [lia | reflexivity | reflexivity |].
    apply writes_write_chars.
  - eapply writes_bind.
    + apply (writes_eq _ (q + nd) _ [NUL] [NUL] tt tt);
        [lia | reflexivity | reflexivity |].
      apply writes_store.
    + apply writes_ret.
Qed.

(** Once its assertion holds, the integer formatter stores the layout
    and the terminator, one character after the other. *)
Lemma int_formatted_write_writes (f : int_formatter.t) (x buf_len : Z) :
  integral_value x ->
  details.supported_base (int_formatter.base_ f) = true ->
  ndigits x (int_formatter.base_ f) + sign_width f x < buf_len ->
  writes (int_formatter.formatted_write f x buf_len) 0
    (int_layout f x ++ [NUL]) (Z.of_nat (length (int_layout f x))).
Proof.
  intros Hx Hbase Hbuf.
  pose proof (ndigits_range x (int_formatter.base_ f) Hx) as Hnd.
  pose proof (sign_chars_length f x) as Hs.
  pose proof (sign_width_range f x) as Hsw.
  unfold int_formatter.formatted_write, int_layout, details.extract_digits.
  cbv zeta. rewrite ndigits_uabs, is_nul_sign_width, Hs, Hbase.
  rewrite size_wrap_small by lia.
  set (nd := ndigits x (int_formatter.base_ f)) in *.
  set (sc := sign_chars (int_formatter.sign_of f x)) in *.
  set (ds := details.digit_string _ _ _ _).
  assert (Hds : nd = Z.of_nat (length ds))
    by (unfold ds; rewrite digit_string_length; lia).
  replace (buf_len >? nd + sign_width f x) with true
    by (symmetry; apply Z.gtb_lt; lia).
  apply writes_assert_true.
  set (pad := Z.to_nat (int_formatter.width_ f - (nd + sign_width f x))).
  destruct (int_formatter.width_ f >? nd + sign_width f x);
    [destruct (int_formatter.any f pad_zeros) |].
  - rewrite (app_assoc sc).
    eapply writes_digits_tail; [| | exact Hds].
    + eapply writes_bind; [apply writes_put_sign |].
      apply writes_fill.
    + fold sc. rewrite length_app, length_replicate. lia.
  - rewrite (app_assoc _ sc).
    eapply writes_digits_tail; [| | exact Hds].
    + eapply writes_bind; [apply writes_fill |].
      eapply writes_eq; [| reflexivity | reflexivity | apply writes_put_sign].
      rewrite length_replicate. lia.
    + fold sc. rewrite length_app, length_replicate. lia.
  - eapply writes_digits_tail; [apply writes_put_sign | fold sc; lia | exact Hds].
Qed.

(** ** The default integer formatter and [int_formatter()] *)

Lemma default_int_formatted_write_as_int (x buf_len : Z) (b : buffer) :
  integral_value x ->
  default_int_formatter.formatted_write default_int_fmt x buf_len b
  = int_formatter.formatted_write int_formatter.default x buf_len b.
Proof.
  intros Hx.
  pose proof (ndigits_base_range 10 _ (uabs_range x Hx)) as Hnd.
  unfold default_int_formatter.formatted_write, int_formatter.formatted_write,
    details.extract_digits, details.extract_digits_dec, int_formatter.sign_of.
  cbv zeta.
  change (int_formatter.base_ int_formatter.default) with 10.
  change (int_formatter.width_ int_formatter.default) with 0.
  change (int_formatter.any int_formatter.default plus_sign) with false.
  change (int_formatter.any int_formatter.default pad_zeros) with false.
  change (int_formatter.any int_formatter.default upper_case) with false.
  change (details.supported_base 10) with true.
  rewrite ndigits_uabs.
  change (ndigits x 10) with (details.ndigits_dec (details.uabs x)).
  unfold details.ndigits_dec in *.
  set (nd := details.ndigits_base 10 (details.uabs x)) in *.
  set (ds := details.digit_string _ _ _ _).
  destruct (x <? 0).
  - change (is_nul "-"%char) with false. cbv iota.
    rewrite size_wrap_small by lia.
    destruct (Z.gtb_spec 0 (nd + 1)) as [Hneg | _]; [lia |].
    unfold put_sign. change (is_nul "-"%char) with false. cbv iota.
    unfold bind, assert, ret.
    destruct (buf_len >? nd + 1); [| reflexivity].
    destruct (store 0 "-"%char b) as [[u1 b1] | |]; try reflexivity.
    change (0 + 1) with 1.
    destruct (details.write_chars ds 1 b1) as [[u2 b2] | |]; try reflexivity.
    destruct (store (1 + nd) NUL b2) as [[u3 b3] | |]; try reflexivity.
    do 2 f_equal. lia.
  - change (is_nul NUL) with true. cbv iota.
    rewrite Z.add_0_r. rewrite size_wrap_small by lia.
    destruct (Z.gtb_spec 0 nd) as [Hneg | _]; [lia |].
    unfold put_sign. change (is_nul NUL) with true. cbv iota.
    unfold bind, assert, ret.
    destruct (buf_len >? nd); [| reflexivity].
    rewrite Z.add_0_l.
    destruct (details.write_chars ds 0 b) as [[u2 b2] | |]; reflexivity.
Qed.

(** X1: the default integer formatter is [int_formatter()] (base 10,
    width 0, no flags) specialised: both give the same length bound and
    the same outcome of [formatted_write] on every buffer. *)
Theorem default_int_formatter_is_int_default (x buf_len : Z) (b : buffer) :
  integral_value x ->
  default_int_formatter.max_formatted_length default_int_fmt x
  = int_formatter.max_formatted_length int_formatter.default x /\
  default_int_formatter.formatted_write default_int_fmt x buf_len b
  = int_formatter.formatted_write int_formatter.default x buf_len b.
Proof.
  intros Hx. split; [| now apply default_int_formatted_write_as_int].
  pose proof (ndigits_base_range 10 _ (uabs_range x Hx)) as Hnd.
  unfold default_int_formatter.max_formatted_length,
    int_formatter.max_formatted_length. cbv zeta.
  change (int_formatter.base_ int_formatter.default) with 10.
  change (int_formatter.width_ int_formatter.default) with 0.
  change (int_formatter.any int_formatter.default plus_sign) with false.
  change (ndigits x 10) with (details.ndigits_dec (details.uabs x)).
  unfold details.ndigits_dec in *. rewrite orb_false_r.
  destruct (x <? 0).
  - rewrite size_wrap_small by lia.
    destruct (Z.gtb_spec (details.ndigits_base 10 (details.uabs x) + 1) 0); lia.
  - destruct (Z.gtb_spec (details.ndigits_base 10 (details.uabs x)) 0); lia.
Qed.

Lemma default_int_formatter_is_int_default_witness :
  default_int_formatter.max_formatted_length default_int_fmt (-42)
  = int_formatter.max_formatted_length int_formatter.default (-42) /\
  default_int_formatter.formatted_write default_int_fmt (-42) 3
    (replicate 3 "x"%char)
  = int_formatter.formatted_write int_formatter.default (-42) 3
      (replicate 3 "x"%char).
Proof.
  apply (default_int_formatter_is_int_default (-42) 3 (replicate 3 "x"%char)).
  unfold integral_value. lia.
Defined.

(** ** When the integer formatter fails *)

Lemma int_formatted_write_assert_fails (f : int_formatter.t) (x buf_len : Z)
  (b : buffer) :
  integral_value x ->
  buf_len <= ndigits x (int_formatter.base_ f) + sign_width f x ->
  int_formatter.formatted_write f x buf_len b = AssertionFailed.
Proof.
  intros Hx Hbuf.
  pose proof (ndigits_range x (int_formatter.base_ f) Hx) as Hnd.
  pose proof (sign_width_range f x) as Hsw.
  unfold int_formatter.formatted_write. cbv zeta.
  rewrite ndigits_uabs, is_nul_sign_width. rewrite size_wrap_small by lia.
  unfold bind at 1, assert at 1.
  destruct (Z.gtb_spec buf_len (ndigits x (int_formatter.base_ f) + sign_width f x));
    [lia | reflexivity].
Qed.

(** X2: for a base among 8, 10 and 16, the assertion of the integer
    formatter fails exactly when [buf_len] does not exceed the count of
    digits and sign; the minimum width and the buffer play no part. *)
Theorem int_formatted_write_assertion (f : int_formatter.t) (x buf_len : Z)
  (b : buffer) :
  integral_value x ->
  details.supported_base (int_formatter.base_ f) = true ->
  (int_formatter.formatted_write f x buf_len b = AssertionFailed <->
   buf_len <= ndigits x (int_formatter.base_ f)
              + (if (x <? 0) || int_formatter.any f plus_sign then 1 else 0)).
Proof.
  intros Hx Hbase. fold (sign_width f x). split.
  - intros Hfail.
    destruct (Z.le_gt_cases buf_len
                (ndigits x (int_formatter.base_ f) + sign_width f x))
      as [Hle | Hgt]; [exact Hle | exfalso].
    destruct (int_formatted_write_writes f x buf_len Hx Hbase ltac:(lia) [] b eq_refl)
      as [Hok Hoob].
    simpl app in Hok, Hoob.
    destruct (Nat.le_gt_cases (length (int_layout f x ++ [NUL])) (length b)) as [H | H].
    + rewrite (Hok H) in Hfail. discriminate.
    + rewrite (Hoob H) in Hfail. discriminate.
  - now apply int_formatted_write_assert_fails.
Qed.

Lemma int_formatted_write_assertion_witness :
  int_formatter.formatted_write (int_formatter.Build 10 0 0) (-42) 3
    (replicate 8 "x"%char) = AssertionFailed <->
  3 <= ndigits (-42) 10 + 1.
Proof.
  apply (int_formatted_write_assertion (int_formatter.Build 10 0 0) (-42) 3
           (replicate 8 "x"%char)).
  - unfold integral_value. lia.
  - reflexivity.
Defined.

(** X3: the assertion does not cover the padding.  When [buf_len] exceeds
    the count of digits and sign but the buffer holds no more than
    [max_formatted_length(x)] characters, [formatted_write] passes its
    assertion and stores past the end of the buffer. *)
Theorem int_formatted_write_overrun (f : int_formatter.t) (x buf_len : Z)
  (b : buffer) :
  integral_value x ->
  details.supported_base (int_formatter.base_ f) = true ->
  ndigits x (int_formatter.base_ f)
  + (if (x <? 0) || int_formatter.any f plus_sign then 1 else 0) < buf_len ->
  Z.of_nat (length b) <= int_formatter.max_formatted_length f x ->
  int_formatter.formatted_write f x buf_len b = OutOfBounds.
Proof.
  intros Hx Hbase Hbuf Hcap. fold (sign_width f x) in Hbuf.
  pose proof (int_layout_length f x Hx) as HL.
  destruct (int_formatted_write_writes f x buf_len Hx Hbase Hbuf [] b eq_refl)
    as [_ Hoob].
  apply Hoob. rewrite length_app. simpl. lia.
Qed.

Lemma int_formatted_write_overrun_witness :
  int_formatter.formatted_write (int_formatter.Build 10 5 0) 42 4
    (replicate 4 "x"%char) = OutOfBounds.
Proof.
  apply (int_formatted_write_overrun (int_formatter.Build 10 5 0) 42 4
           (replicate 4 "x"%char)).
  - unfold integral_value. lia.
  - reflexivity.
  - vm_compute. reflexivity.
  - vm_compute. discriminate.
Defined.

(** X4: the default integer formatter asserts on the whole length.  With
    a [buf_len] that does not overstate the buffer it never stores out
    of bounds: it fails its assertion when [buf_len] does not exceed
    [max_formatted_length(x)] and succeeds otherwise. *)
Theorem default_int_formatted_write_outcome (x buf_len : Z) (b : buffer) :
  integral_value x ->
  buf_len <= Z.of_nat (length b) ->
  (buf_len <= default_int_formatter.max_formatted_length default_int_fmt x ->
   default_int_formatter.formatted_write default_int_fmt x buf_len b
   = AssertionFailed) /\
  (default_int_formatter.max_formatted_length default_int_fmt x < buf_len ->
   exists b' : buffer,
     default_int_formatter.formatted_write default_int_fmt x buf_len b
     = Ok (default_int_formatter.max_formatted_length default_int_fmt x, b')).
Proof.
  intros Hx Hcap.
  pose proof (default_int_layout_length x Hx) as HL.
  split; intros Hlen.
  - rewrite default_int_formatted_write_as_int by assumption.
    apply int_formatted_write_assert_fails; [assumption |].
    pose proof (ndigits_base_range 10 _ (uabs_range x Hx)) as Hnd.
    revert Hlen. unfold default_int_formatter.max_formatted_length, sign_width.
    cbv zeta.
    change (int_formatter.base_ int_formatter.default) with 10.
    change (int_formatter.any int_formatter.default plus_sign) with false.
    change (ndigits x 10) with (details.ndigits_dec (details.uabs x)).
    unfold details.ndigits_dec in *. rewrite orb_false_r.
    destruct (x <? 0); rewrite ?size_wrap_small by lia; lia.
  - eexists. rewrite <- HL.
    apply default_int_formatted_write_layout; [assumption | lia | lia].
Qed.

Lemma default_int_formatted_write_outcome_witness :
  default_int_formatter.formatted_write default_int_fmt (-42) 3
    (replicate 3 "x"%char) = AssertionFailed.
Proof.
  apply (proj1 (default_int_formatted_write_outcome (-42) 3 (replicate 3 "x"%char)
                  ltac:(unfold integral_value; lia)
                  ltac:(vm_compute; discriminate))).
  vm_compute. discriminate.
Defined.

(** ** [strf] and [str] on integers *)



Lemma digit_char_not_minus (upper : bool) (v : Z) :
  0 <= v < 16 -> details.digit_char upper v <> "-"%char.
Proof.
  intros Hv Heq. pose proof (digit_value_digit_char upper v Hv) as H.
  rewrite Heq in H. vm_compute in H. lia.
Qed.

Lemma digit_string_no_minus (b : Z) (upper : bool) (count : nat) :
  2 <= b <= 16 ->
  forall x : Z, 0 <= x ->
    Forall (fun c => c <> "-"%char) (details.digit_string b upper x count).
Proof.
  intros Hb. induction count as [| k IH]; intros x Hx; simpl.
  - constructor.
  - apply Forall_app. split.
    + apply IH. apply Z.div_pos; lia.
    + constructor; [| constructor]. apply digit_char_not_minus.
      pose proof (Z.mod_pos_bound x b ltac:(lia)). lia.
Qed.

Lemma parse_default_int_layout (x : Z) :
  parse_decimal (default_int_layout x) = x.
Proof.
  unfold default_int_layout, details.ndigits_dec.
  assert (Hu : 0 <= details.uabs x) by (rewrite uabs_abs; lia).
  pose proof (digits_of_magnitude 10 false (details.uabs x) eq_refl Hu) as Hval.
  pose proof (digit_string_no_minus 10 false
                (Z.to_nat (details.ndigits_base 10 (details.uabs x)))
                ltac:(lia) (details.uabs x) Hu) as Hno.
  set (ds := details.digit_string _ _ _ _) in *.
  destruct (Z.ltb_spec x 0) as [Hneg | Hpos].
  - simpl. rewrite Hval, uabs_abs. lia.
  - simpl app. destruct ds as [| c ds'].
    + change (digits_value 10 []) with 0 in Hval. rewrite uabs_abs in Hval.
      unfold parse_decimal. lia.
    + unfold parse_decimal. apply Forall_cons in Hno as [Hc _].
      destruct (ascii_dec c "-"%char) as [-> | _]; [contradiction |].
      rewrite Hval, uabs_abs. lia.
Qed.

(** [str] on a [char] is the character itself, not its code in
    decimal. *)
Example str_char_A : str_char "A"%char = "A"%string /\ str 65 = Ok "65"%string.
Proof. split; reflexivity. Qed.

(** X6: [str] on a value of an integral type other than [char] succeeds,
    and reading its text back as a decimal number with an optional minus
    sign gives the value again. *)
Theorem str_round_trip (x : Z) :
  integral_value x ->
  exists s : string,
    str x = Ok s /\ parse_decimal (list_ascii_of_string s) = x.
Proof.
  intros Hx. exists (string_of_list_ascii (default_int_layout x)).
  split; [| rewrite list_ascii_of_string_of_list_ascii;
            apply parse_default_int_layout].
  pose proof (default_int_layout_length x Hx) as HL.
  pose proof (ndigits_base_range 10 _ (uabs_range x Hx)) as Hnd.
  assert (Hm : 1 <= default_int_formatter.max_formatted_length default_int_fmt x <= 66).
  { unfold default_int_formatter.max_formatted_length, details.ndigits_dec.
    cbv zeta. destruct (x <? 0); rewrite ?size_wrap_small by lia; lia. }
  unfold str, default_formatter, strf. cbv zeta.
  change (max_formatted_length default_int_fmt x)
    with (default_int_formatter.max_formatted_length default_int_fmt x).
  change (formatted_write default_int_fmt x)
    with (default_int_formatter.formatted_write default_int_fmt x).
  rewrite size_wrap_small by lia.
  rewrite default_int_formatted_write_layout;
    [| assumption | lia | rewrite length_app, length_replicate; simpl; lia].
  rewrite HL.
  replace (default_int_formatter.max_formatted_length default_int_fmt x
           <=? default_int_formatter.max_formatted_length default_int_fmt x)
    with true by (symmetry; apply Z.leb_refl).
  rewrite Z.ltb_irrefl.
  rewrite take_app_length' by lia. reflexivity.
Qed.

Lemma str_round_trip_witness :
  exists s : string,
    str (- 2 ^ 63) = Ok s /\ parse_decimal (list_ascii_of_string s) = - 2 ^ 63.
Proof.
  apply (str_round_trip (- 2 ^ 63)). unfold integral_value. lia.
Defined.

(** ** Flags *)

Lemma lor_land_nonzero (a v msk : Z) :
  negb (Z.land (Z.lor a v) msk =? 0)
  = negb (Z.land a msk =? 0) || negb (Z.land v msk =? 0).
Proof.
  rewrite Z.land_lor_distr_l.
  destruct (Z.eqb_spec (Z.land a msk) 0) as [Ha | Ha];
    destruct (Z.eqb_spec (Z.land v msk) 0) as [Hv | Hv]; simpl;
    destruct (Z.eqb_spec (Z.lor (Z.land a msk) (Z.land v msk)) 0) as [H | H];
    try reflexivity; exfalso.
  - apply H. apply Z.lor_eq_0_iff. now split.
  - apply Z.lor_eq_0_iff in H. tauto.
  - apply Z.lor_eq_0_iff in H. tauto.
  - apply Z.lor_eq_0_iff in H. tauto.
Qed.

(** X7: [f | v] answers [any(msk)] with yes when [f] did or when [v] has
    a bit of [msk], for the integer and for the float formatter; on the
    default integer formatter, whose [any] is always false, [| v] yields
    the integer formatter with exactly the flags [v]. *)
Theorem or_any (v msk : flag_t) :
  (forall f : int_formatter.t,
     int_formatter.any (int_formatter.or f v) msk
     = int_formatter.any f msk || negb (Z.land v msk =? 0)) /\
  (forall f : float_formatter.t,
     float_formatter.any (float_formatter.or f v) msk
     = float_formatter.any f msk || negb (Z.land v msk =? 0)) /\
  (forall f : default_int_formatter.t,
     int_formatter.any (default_int_formatter.or f v) msk
     = negb (Z.land v msk =? 0)).
Proof.
  split; [| split]; intros f.
  - apply lor_land_nonzero.
  - apply lor_land_nonzero.
  - reflexivity.
Qed.

(** ** Wrap-around arithmetic of an integral kind *)

Lemma pow2_bits (n : Z) : 0 < n -> 2 ^ n = 2 * 2 ^ (n - 1) /\ 0 < 2 ^ (n - 1).
Proof.
  intros Hn. split.
  - rewrite <- Z.pow_succ_r by lia. f_equal. lia.
  - apply Z.pow_pos_nonneg; lia.
Qed.

Lemma wrap_in_kind (k : value_range.int_kind) (x : Z) :
  0 < value_range.bits k -> in_kind k x -> value_range.wrap k x = x.
Proof.
  intros Hb Hx. destruct (pow2_bits _ Hb) as [HM HH].
  unfold in_kind, value_range.wrap in *. destruct (value_range.is_signed k).
  - rewrite Z.mod_small by lia. lia.
  - apply Z.mod_small. lia.
Qed.

Lemma wrap_kind (k : value_range.int_kind) (z : Z) :
  0 < value_range.bits k -> in_kind k (value_range.wrap k z).
Proof.
  intros Hb. destruct (pow2_bits _ Hb) as [HM HH].
  unfold in_kind, value_range.wrap. destruct (value_range.is_signed k).
  - pose proof (Z.mod_pos_bound (z + 2 ^ (value_range.bits k - 1))
                  (2 ^ value_range.bits k) ltac:(lia)). lia.
  - apply Z.mod_pos_bound. lia.
Qed.

Lemma wrap_mod (k : value_range.int_kind) (z : Z) :
  0 < value_range.bits k ->
  value_range.wrap k z mod 2 ^ value_range.bits k = z mod 2 ^ value_range.bits k.
Proof.
  intros Hb. destruct (pow2_bits _ Hb) as [HM HH].
  unfold value_range.wrap. destruct (value_range.is_signed k).
  - rewrite Zminus_mod_idemp_l. f_equal. lia.
  - apply Z.mod_mod. lia.
Qed.

Lemma wrap_congr (k : value_range.int_kind) (a b : Z) :
  0 < value_range.bits k ->
  a mod 2 ^ value_range.bits k = b mod 2 ^ value_range.bits k ->
  value_range.wrap k a = value_range.wrap k b.
Proof.
  intros Hb Hab. destruct (pow2_bits _ Hb) as [HM HH].
  unfold value_range.wrap. destruct (value_range.is_signed k).
  - f_equal. rewrite (Z.add_mod a), (Z.add_mod b), Hab by lia. reflexivity.
  - exact Hab.
Qed.

(** Wrapping an argument of a sum or a difference first changes nothing,
    also across the signed and unsigned kinds of one width. *)
Lemma wrap_add_l (k k' : value_range.int_kind) (a b : Z) :
  0 < value_range.bits k -> value_range.bits k' = value_range.bits k ->
  value_range.wrap k (value_range.wrap k' a + b) = value_range.wrap k (a + b).
Proof.
  intros Hb Hk. destruct (pow2_bits _ Hb) as [HM HH].
  apply wrap_congr; [assumption |].
  rewrite Z.add_mod by lia. rewrite <- Hk at 1. rewrite wrap_mod by lia.
  rewrite Hk. now rewrite <- Z.add_mod by lia.
Qed.

Lemma wrap_add_r (k k' : value_range.int_kind) (a b : Z) :
  0 < value_range.bits k -> value_range.bits k' = value_range.bits k ->
  value_range.wrap k (a + value_range.wrap k' b) = value_range.wrap k (a + b).
Proof.
  intros Hb Hk. rewrite Z.add_comm, wrap_add_l by assumption.
  now rewrite Z.add_comm.
Qed.

Lemma wrap_sub_l (k k' : value_range.int_kind) (a b : Z) :
  0 < value_range.bits k -> value_range.bits k' = value_range.bits k ->
  value_range.wrap k (value_range.wrap k' a - b) = value_range.wrap k (a - b).
Proof.
  intros Hb Hk. unfold Z.sub. now apply wrap_add_l.
Qed.

Lemma wrap_wrap (k k' : value_range.int_kind) (a : Z) :
  0 < value_range.bits k -> value_range.bits k' = value_range.bits k ->
  value_range.wrap k (value_range.wrap k' a) = value_range.wrap k a.
Proof.
  intros Hb Hk. pose proof (wrap_add_l k k' a 0 Hb Hk) as H.
  now rewrite !Z.add_0_r in H.
Qed.

(** [n] increments in a row *)
Lemma iter_pre_increment (k : value_range.int_kind) (n : nat) (v : Z) :
  0 < value_range.bits k -> in_kind k v ->
  Nat.iter n (value_range.pre_increment (value_range.integral_traits k))
    (value_range.Iter v)
  = value_range.Iter (value_range.wrap k (v + Z.of_nat n)).
Proof.
  intros Hb Hv. induction n as [| n IH].
  - simpl. rewrite Z.add_0_r. now rewrite wrap_in_kind.
  - simpl Nat.iter. rewrite IH. unfold value_range.pre_increment. simpl.
    f_equal. rewrite (wrap_add_l k k) by trivial. f_equal. lia.
Qed.

(** ** The value-range iterator and [value_range] *)

(** X8: on an iterator at a value of the type, [++] followed by [--]
    and [--] followed by [++] return to the same position, also across
    the wrap-around at the ends of the type. *)
Theorem increment_decrement_round_trip (k : value_range.int_kind) (v : Z) :
  0 < value_range.bits k -> in_kind k v ->
  value_range.pre_decrement (value_range.integral_traits k)
    (value_range.pre_increment (value_range.integral_traits k)
       (value_range.Iter v)) = value_range.Iter v /\
  value_range.pre_increment (value_range.integral_traits k)
    (value_range.pre_decrement (value_range.integral_traits k)
       (value_range.Iter v)) = value_range.Iter v.
Proof.
  intros Hb Hv. unfold value_range.pre_decrement, value_range.pre_increment.
  simpl. split; f_equal.
  - rewrite (wrap_sub_l k k) by trivial.
    replace (v + 1 - 1) with v by lia. now apply wrap_in_kind.
  - rewrite (wrap_add_l k k) by trivial.
    replace (v - 1 + 1) with v by lia. now apply wrap_in_kind.
Qed.

Lemma increment_decrement_round_trip_witness :
  value_range.pre_decrement (value_range.integral_traits value_range.int32)
    (value_range.pre_increment (value_range.integral_traits value_range.int32)
       (value_range.Iter (2 ^ 31 - 1))) = value_range.Iter (2 ^ 31 - 1) /\
  value_range.pre_increment (value_range.integral_traits value_range.int32)
    (value_range.pre_decrement (value_range.integral_traits value_range.int32)
       (value_range.Iter (2 ^ 31 - 1))) = value_range.Iter (2 ^ 31 - 1).
Proof.
  apply (increment_decrement_round_trip value_range.int32 (2 ^ 31 - 1)).
  - reflexivity.
  - unfold in_kind. simpl. lia.
Defined.

(** X9: [(it + n) - n], [(it - n) + n] and [it += n] followed by
    [it -= n] give back [it], for every [n]. *)
Theorem plus_minus_round_trip (k : value_range.int_kind) (v n : Z) :
  0 < value_range.bits k -> in_kind k v ->
  integral_range.minus k (integral_range.plus k (value_range.Iter v) n) n
  = value_range.Iter v /\
  integral_range.plus k (integral_range.minus k (value_range.Iter v) n) n
  = value_range.Iter v /\
  integral_range.sub_assign k
    (integral_range.add_assign k (value_range.Iter v) n) n
  = value_range.Iter v.
Proof.
  intros Hb Hv.
  unfold integral_range.minus, integral_range.plus, integral_range.sub_assign,
    integral_range.add_assign, integral_range.advance, integral_range.retreat,
    integral_range.increment_by, integral_range.decrement_by.
  simpl. repeat split; f_equal.
  - rewrite (wrap_sub_l k k) by trivial.
    replace (v + n - n) with v by lia. now apply wrap_in_kind.
  - rewrite (wrap_add_l k k) by trivial.
    replace (v - n + n) with v by lia. now apply wrap_in_kind.
  - rewrite (wrap_sub_l k k) by trivial.
    replace (v + n - n) with v by lia. now apply wrap_in_kind.
Qed.

Lemma plus_minus_round_trip_witness :
  integral_range.minus value_range.int32
    (integral_range.plus value_range.int32 (value_range.Iter 7) 100) 100
  = value_range.Iter 7 /\
  integral_range.plus value_range.int32
    (integral_range.minus value_range.int32 (value_range.Iter 7) 100) 100
  = value_range.Iter 7 /\
  integral_range.sub_assign value_range.int32
    (integral_range.add_assign value_range.int32 (value_range.Iter 7) 100) 100
  = value_range.Iter 7.
Proof.
  apply (plus_minus_round_trip value_range.int32 7 100).
  - reflexivity.
  - unfold in_kind. simpl. lia.
Defined.

(** X10: the difference of [it + n] and [it] is [n], for every [n] of
    the difference type. *)
Theorem diff_plus (k : value_range.int_kind) (v n : Z) :
  0 < value_range.bits k ->
  in_kind (integral_range.difference_kind k) n ->
  integral_range.diff k (integral_range.plus k (value_range.Iter v) n)
    (value_range.Iter v) = n.
Proof.
  intros Hb Hn.
  unfold integral_range.diff, integral_range.plus, integral_range.distance,
    integral_range.advance. simpl.
  rewrite (wrap_sub_l (integral_range.difference_kind k) k) by trivial.
  replace (v + n - v) with n by lia. now apply wrap_in_kind.
Qed.

Lemma diff_plus_witness :
  integral_range.diff value_range.int32
    (integral_range.plus value_range.int32 (value_range.Iter 7) (-100))
    (value_range.Iter 7) = -100.
Proof.
  apply (diff_plus value_range.int32 7 (-100)).
  - reflexivity.
  - unfold in_kind. simpl. lia.
Defined.

(** X11: adding to an iterator its distance to another one reaches the
    other one: [a + (b - a) = b]. *)
Theorem plus_diff (k : value_range.int_kind) (a b : Z) :
  0 < value_range.bits k -> in_kind k b ->
  integral_range.plus k (value_range.Iter a)
    (integral_range.diff k (value_range.Iter b) (value_range.Iter a))
  = value_range.Iter b.
Proof.
  intros Hb Hin.
  unfold integral_range.diff, integral_range.plus, integral_range.distance,
    integral_range.advance. simpl. f_equal.
  rewrite (wrap_add_r k (integral_range.difference_kind k)) by trivial.
  replace (a + (b - a)) with b by lia. now apply wrap_in_kind.
Qed.

Lemma plus_diff_witness :
  integral_range.plus value_range.int32 (value_range.Iter (-3))
    (integral_range.diff value_range.int32 (value_range.Iter 9)
       (value_range.Iter (-3)))
  = value_range.Iter 9.
Proof.
  apply (plus_diff value_range.int32 (-3) 9).
  - reflexivity.
  - unfold in_kind. simpl. lia.
Defined.

Lemma size_mod (k : value_range.int_kind) (r : integral_range.t) :
  0 < value_range.bits k ->
  integral_range.size k r
  = (integral_range.last_ r - integral_range.first_ r)
      mod 2 ^ value_range.bits k.
Proof.
  intros Hb. unfold integral_range.size, integral_range.distance.
  rewrite (wrap_wrap (integral_range.size_kind k)
             (integral_range.difference_kind k)) by trivial.
  reflexivity.
Qed.

Lemma kind_width (k : value_range.int_kind) (x y : Z) :
  0 < value_range.bits k -> in_kind k x -> in_kind k y ->
  - 2 ^ value_range.bits k < y - x < 2 ^ value_range.bits k.
Proof.
  intros Hb Hx Hy. destruct (pow2_bits _ Hb) as [HM HH].
  unfold in_kind in *. destruct (value_range.is_signed k); lia.
Qed.

(** X12: [size()] is [last - first] when [first <= last]; for a range
    with [last < first] it is not 0 but [2^bits - (first - last)]. *)
Theorem size_value (k : value_range.int_kind) (r : integral_range.t) :
  0 < value_range.bits k ->
  in_kind k (integral_range.first_ r) -> in_kind k (integral_range.last_ r) ->
  (integral_range.first_ r <= integral_range.last_ r ->
   integral_range.size k r = integral_range.last_ r - integral_range.first_ r) /\
  (integral_range.last_ r < integral_range.first_ r ->
   integral_range.size k r
   = 2 ^ value_range.bits k
     - (integral_range.first_ r - integral_range.last_ r)).
Proof.
  intros Hb Hf Hl. pose proof (kind_width k _ _ Hb Hf Hl) as Hw.
  rewrite size_mod by assumption. split; intros H.
  - apply Z.mod_small. lia.
  - symmetry. apply (Z.mod_unique _ _ (-1)); lia.
Qed.

Lemma size_value_witness :
  integral_range.size value_range.int32 (integral_range.make value_range.int32 3 10)
  = 10 - 3 /\
  integral_range.size value_range.int32 (integral_range.make value_range.int32 5 3)
  = 2 ^ 32 - (5 - 3).
Proof.
  split.
  - apply (proj1 (size_value value_range.int32
                    (integral_range.make value_range.int32 3 10)
                    ltac:(reflexivity)
                    ltac:(vm_compute; split; [discriminate | reflexivity])
                    ltac:(vm_compute; split; [discriminate | reflexivity]))).
    vm_compute. discriminate.
  - apply (proj2 (size_value value_range.int32
                    (integral_range.make value_range.int32 5 3)
                    ltac:(reflexivity)
                    ltac:(vm_compute; split; [discriminate | reflexivity])
                    ltac:(vm_compute; split; [discriminate | reflexivity]))).
    vm_compute. reflexivity.
Defined.

(** X13: a range is [empty()] exactly when its [size()] is 0. *)
Theorem empty_iff_size_0 (k : value_range.int_kind) (r : integral_range.t) :
  0 < value_range.bits k ->
  in_kind k (integral_range.first_ r) -> in_kind k (integral_range.last_ r) ->
  (integral_range.empty k r = true <-> integral_range.size k r = 0).
Proof.
  intros Hb Hf Hl. pose proof (kind_width k _ _ Hb Hf Hl) as Hw.
  destruct (size_value k r Hb Hf Hl) as [Hle Hgt].
  unfold integral_range.empty. simpl. rewrite Z.eqb_eq.
  destruct (Z.le_gt_cases (integral_range.first_ r) (integral_range.last_ r))
    as [H | H].
  - rewrite (Hle H). lia.
  - rewrite (Hgt H). lia.
Qed.

Lemma empty_iff_size_0_witness :
  integral_range.empty value_range.int32
    (integral_range.make value_range.int32 4 4) = true <->
  integral_range.size value_range.int32
    (integral_range.make value_range.int32 4 4) = 0.
Proof.
  apply (empty_iff_size_0 value_range.int32
           (integral_range.make value_range.int32 4 4)).
  - reflexivity.
  - vm_compute. split; [discriminate | reflexivity].
  - vm_compute. split; [discriminate | reflexivity].
Defined.

(** X14: stepping an iterator with [++] from [begin()] reaches [end()]
    after exactly [size()] steps, and compares unequal to [end()] at
    every step before. *)
Theorem traversal_reaches_end (k : value_range.int_kind) (r : integral_range.t) :
  0 < value_range.bits k ->
  in_kind k (integral_range.first_ r) -> in_kind k (integral_range.last_ r) ->
  Nat.iter (Z.to_nat (integral_range.size k r))
    (value_range.pre_increment (value_range.integral_traits k))
    (integral_range.begin_ r)
  = integral_range.end_ r /\
  forall j : nat,
    (j < Z.to_nat (integral_range.size k r))%nat ->
    integral_range.iter_ne k
      (Nat.iter j (value_range.pre_increment (value_range.integral_traits k))
         (integral_range.begin_ r))
      (integral_range.end_ r) = true.
Proof.
  intros Hb Hf Hl. destruct (pow2_bits _ Hb) as [HM HH].
  pose proof (size_mod k r Hb) as Hsize.
  pose proof (Z.mod_pos_bound
                (integral_range.last_ r - integral_range.first_ r)
                (2 ^ value_range.bits k) ltac:(lia)) as Hrange.
  rewrite <- Hsize in Hrange.
  unfold integral_range.begin_, integral_range.end_. split.
  - rewrite iter_pre_increment by assumption. f_equal.
    rewrite Z2Nat.id by lia. rewrite Hsize.
    rewrite <- (wrap_in_kind k (integral_range.last_ r)) at 2 by assumption.
    apply wrap_congr; [assumption |].
    rewrite Z.add_mod_idemp_r by lia. f_equal. lia.
  - intros j Hj. rewrite iter_pre_increment by assumption.
    unfold integral_range.iter_ne. simpl.
    apply negb_true_iff, Z.eqb_neq. intros Heq.
    assert (Hmod : (integral_range.first_ r + Z.of_nat j)
                     mod 2 ^ value_range.bits k
                   = integral_range.last_ r mod 2 ^ value_range.bits k)
      by (rewrite <- Heq; symmetry; now apply wrap_mod).
    assert (Hj' : Z.of_nat j mod 2 ^ value_range.bits k
                  = integral_range.size k r).
    { rewrite Hsize.
      replace (Z.of_nat j)
        with (integral_range.first_ r + Z.of_nat j - integral_range.first_ r)
        by lia.
      rewrite Zminus_mod, Hmod, <- Zminus_mod. reflexivity. }
    rewrite Z.mod_small in Hj' by lia. lia.
Qed.

Lemma traversal_reaches_end_witness :
  Nat.iter (Z.to_nat (integral_range.size value_range.int32
                        (integral_range.make value_range.int32 (-2) 3)))
    (value_range.pre_increment (value_range.integral_traits value_range.int32))
    (integral_range.begin_ (integral_range.make value_range.int32 (-2) 3))
  = integral_range.end_ (integral_range.make value_range.int32 (-2) 3) /\
  forall j : nat,
    (j < Z.to_nat (integral_range.size value_range.int32
                     (integral_range.make value_range.int32 (-2) 3)))%nat ->
    integral_range.iter_ne value_range.int32
      (Nat.iter j
         (value_range.pre_increment (value_range.integral_traits value_range.int32))
         (integral_range.begin_ (integral_range.make value_range.int32 (-2) 3)))
      (integral_range.end_ (integral_range.make value_range.int32 (-2) 3)) = true.
Proof.
  apply (traversal_reaches_end value_range.int32
           (integral_range.make value_range.int32 (-2) 3)).
  - reflexivity.
  - vm_compute. split; [discriminate | reflexivity].
  - vm_compute. split; [discriminate | reflexivity].
Defined.

(** X15: the constructor takes [last] as a [size_type] and stores it in
    a [T]; a [last] of type [T], negative ones included, comes back from
    [last()] unchanged, and [first()] is the first argument. *)
Theorem make_first_last (k : value_range.int_kind) (first last : Z) :
  0 < value_range.bits k -> in_kind k last ->
  integral_range.first
    (integral_range.make k first
       (value_range.wrap (integral_range.size_kind k) last)) = first /\
  integral_range.last
    (integral_range.make k first
       (value_range.wrap (integral_range.size_kind k) last)) = last.
Proof.
  intros Hb Hl. split; [reflexivity |].
  unfold integral_range.last, integral_range.make. simpl.
  rewrite (wrap_wrap k (integral_range.size_kind k)) by trivial.
  now apply wrap_in_kind.
Qed.

Lemma make_first_last_witness :
  integral_range.first
    (integral_range.make value_range.int32 (-5)
       (value_range.wrap (integral_range.size_kind value_range.int32) (-2)))
  = -5 /\
  integral_range.last
    (integral_range.make value_range.int32 (-5)
       (value_range.wrap (integral_range.size_kind value_range.int32) (-2)))
  = -2.
Proof.
  apply (make_first_last value_range.int32 (-5) (-2)).
  - reflexivity.
  - vm_compute. split; [discriminate | reflexivity].
Defined.

(** X16: the six comparison operators of the iterator agree with one
    another: exactly one of [<], [==], [>] holds, [<=] is [<] or [==],
    [>=] is [>] or [==], and [!=] is the negation of [==]. *)
Theorem iterator_comparisons (k : value_range.int_kind)
  (a b : @value_range.value_range_iterator Z) :
  (integral_range.iter_lt a b = true /\ integral_range.iter_eq k a b = false
     /\ integral_range.iter_gt a b = false \/
   integral_range.iter_lt a b = false /\ integral_range.iter_eq k a b = true
     /\ integral_range.iter_gt a b = false \/
   integral_range.iter_lt a b = false /\ integral_range.iter_eq k a b = false
     /\ integral_range.iter_gt a b = true) /\
  integral_range.iter_le a b
  = integral_range.iter_lt a b || integral_range.iter_eq k a b /\
  integral_range.iter_ge a b
  = integral_range.iter_gt a b || integral_range.iter_eq k a b /\
  integral_range.iter_ne k a b = negb (integral_range.iter_eq k a b) /\
  (integral_range.iter_eq k a b = true <-> a = b).
Proof.
  destruct a as [x], b as [y].
  unfold integral_range.iter_lt, integral_range.iter_gt, integral_range.iter_le,
    integral_range.iter_ge, integral_range.iter_eq, integral_range.iter_ne,
    integral_range.lt, integral_range.le.
  simpl.
  destruct (Z.ltb_spec x y), (Z.ltb_spec y x), (Z.eqb_spec x y),
    (Z.leb_spec x y), (Z.leb_spec y x); try lia.
  all: repeat split; try reflexivity; try congruence; try (intros; lia);
    try (intros H'; injection H' as ->; lia); auto.
Qed.
